(** * Major/Minor change classifier (SVC.py): normalizer, metrics, decision wrapper

    A shallow embedding of [Checker] from [SVC.py].  Python byte strings are
    [string]s of 8-bit [ascii] characters, the vocabulary dictionary is a
    [gmap string nat], Python exceptions are an error sum, and the regular
    expressions of the cleaning cascade are values of a small regex type run
    by a backtracking matcher with Python's leftmost, ordered-alternative,
    greedy semantics. *)

From Stdlib Require Import String Ascii List Bool Arith ZArith QArith Qfield Lia Lqa.
From stdpp Require Import base option list sorting gmap strings.

Local Open Scope string_scope.
Local Open Scope list_scope.

(** ** Characters *)

Module Char.

Definition code (c : ascii) : nat := nat_of_ascii c.

Definition between (lo hi : nat) (c : ascii) : bool :=
  (lo <=? code c)%nat && (code c <=? hi)%nat.

(** [string.whitespace] of a Python byte string: tab, LF, VT, FF, CR, space. *)
Definition is_space (c : ascii) : bool :=
  between 9 13 c || (code c =? 32)%nat.

(** [\d] *)
Definition is_digit (c : ascii) : bool := between 48 57 c.

Definition is_lower (c : ascii) : bool := between 97 122 c.

Definition is_upper (c : ascii) : bool := between 65 90 c.

(** [\w] on byte strings: [[a-zA-Z0-9_]] *)
Definition is_word (c : ascii) : bool :=
  is_lower c || is_upper c || is_digit c || (code c =? 95)%nat.

Definition is_apostrophe (c : ascii) : bool := (code c =? 39)%nat.

(** [.] matches everything but a newline *)
Definition not_newline (c : ascii) : bool := negb (code c =? 10)%nat.

(** [[a-z0-9 ']] and its complement [[^a-z0-9 ']] *)
Definition is_kept (c : ascii) : bool :=
  is_lower c || is_digit c || (code c =? 32)%nat || is_apostrophe c.

Definition not_kept (c : ascii) : bool := negb (is_kept c).

(** anything but whitespace *)
Definition nonspace (c : ascii) : bool := negb (is_space c).

(** [[\w']] *)
Definition is_token_char (c : ascii) : bool := is_word c || is_apostrophe c.

(** lowercase letters and the space, and everything else *)
Definition is_letter_or_blank (c : ascii) : bool :=
  is_lower c || (code c =? 32)%nat.

Definition is_other (c : ascii) : bool := negb (is_letter_or_blank c).

(** plain text: lowercase letters, digits, underscores, apostrophes and
    whitespace *)
Definition is_plain (c : ascii) : bool :=
  is_space c || is_lower c || is_digit c || (code c =? 95)%nat || is_apostrophe c.

Definition lower (c : ascii) : ascii :=
  if is_upper c then ascii_of_nat (code c + 32) else c.

End Char.

(** ** Strings: [str.lower], [str.split], [str.join], [str.strip] *)

Module Str.

Fixpoint lower (s : string) : string :=
  match s with
  | EmptyString => EmptyString
  | String c s' => String (Char.lower c) (lower s')
  end.

Fixpoint all (p : ascii -> bool) (s : string) : bool :=
  match s with
  | EmptyString => true
  | String c s' => p c && all p s'
  end.

Definition is_empty (s : string) : bool :=
  match s with EmptyString => true | _ => false end.

Definition flush (acc : string) : list string :=
  if is_empty acc then [] else [acc].

(** The maximal runs of characters satisfying [p]; [acc] is the run being
    read. *)
Fixpoint runs_acc (p : ascii -> bool) (acc : string) (s : string) : list string :=
  match s with
  | EmptyString => flush acc
  | String c s' =>
      if p c then runs_acc p (acc +:+ String c EmptyString) s'
      else flush acc ++ runs_acc p EmptyString s'
  end.

Definition runs (p : ascii -> bool) (s : string) : list string :=
  runs_acc p EmptyString s.

(** The length of the longest prefix of characters satisfying [p]. *)
Fixpoint span (p : ascii -> bool) (s : string) : nat :=
  match s with
  | String c s' => if p c then S (span p s') else 0
  | EmptyString => 0
  end.

(** [s.split()] without arguments: the maximal runs of non-whitespace. *)
Definition split (s : string) : list string :=
  runs Char.nonspace s.

(** A word for [p]: a non-empty string of characters satisfying [p]. *)
Definition word (p : ascii -> bool) (w : string) : Prop :=
  w <> "" /\ all p w = true.

(** [sep.join(ws)] *)
Definition join (sep : string) (ws : list string) : string :=
  String.concat sep ws.

Fixpoint lstrip (s : string) : string :=
  match s with
  | String c s' => if Char.is_space c then lstrip s' else s
  | EmptyString => EmptyString
  end.

Fixpoint rstrip (s : string) : string :=
  match s with
  | EmptyString => EmptyString
  | String c s' =>
      match rstrip s' with
      | EmptyString => if Char.is_space c then EmptyString else String c EmptyString
      | t => String c t
      end
  end.

(** [s.strip()] *)
Definition strip (s : string) : string := rstrip (lstrip s).

End Str.

(** ** Regular expressions: the fragment of [re] used by [SVC.py] *)

Module Re.

(** Quantifiers occur in the source only on one-character atoms
    ([\d+], [\[*], [m+], [l{1,2}]), so [Rep] repeats a character class. *)
Inductive regex : Type :=
| Eps
| Chr (a : ascii)
| Cls (p : ascii -> bool)
| WordB
| Seq (r1 r2 : regex)
| Alt (r1 r2 : regex)
| Rep (p : ascii -> bool) (lo : nat) (hi : option nat)
| Grp (i : nat) (r : regex).

Definition Star (p : ascii -> bool) : regex := Rep p 0 None.
Definition Plus (p : ascii -> bool) : regex := Rep p 1 None.
Definition is_chr (a : ascii) : ascii -> bool := Ascii.eqb a.

(** A literal piece of pattern text. *)
Fixpoint Lit (s : string) : regex :=
  match s with
  | EmptyString => Eps
  | String c EmptyString => Chr c
  | String c s' => Seq (Chr c) (Lit s')
  end.

Fixpoint seqs (rs : list regex) : regex :=
  match rs with
  | [] => Eps
  | [r] => r
  | r :: rs' => Seq r (seqs rs')
  end.

(** [r1|r2|...|rn]: the alternatives are tried in order. *)
Fixpoint alts (rs : list regex) : regex :=
  match rs with
  | [] => Eps
  | [r] => r
  | r :: rs' => Alt r (alts rs')
  end.

Definition groups : Type := list (nat * string).

Fixpoint group (i : nat) (g : groups) : string :=
  match g with
  | [] => EmptyString
  | (j, t) :: g' => if (i =? j)%nat then t else group i g'
  end.

(** [\b]: exactly one of the characters around the position is a word
    character; the ends of the string count as non-word. *)
Definition at_boundary (prev : option ascii) (s : string) : bool :=
  xorb (match prev with Some c => Char.is_word c | None => false end)
       (match s with String c _ => Char.is_word c | EmptyString => false end).

Definition may_take (hi : option nat) : bool :=
  match hi with Some 0 => false | _ => true end.

Section Matcher.
Context {R : Type}.

(** The continuation of a match: the character before the position, the
    text from the position on, and the number of characters consumed. *)
Definition cont : Type := option ascii -> string -> nat -> groups -> option R.

(** Greedy repetition of a class with backtracking: take one more
    character if possible, and fall back to stopping here. *)
Fixpoint rep (p : ascii -> bool) (lo : nat) (hi : option nat)
    (prev : option ascii) (s : string) (n : nat)
    (k : option ascii -> string -> nat -> option R) {struct s} : option R :=
  let stop := match lo with 0 => k prev s n | S _ => None end in
  match s with
  | String c s' =>
      if p c && may_take hi then
        match rep p (Nat.pred lo) (Nat.pred <$> hi) (Some c) s' (S n) k with
        | Some x => Some x
        | None => stop
        end
      else stop
  | EmptyString => stop
  end.

Fixpoint run (r : regex) (prev : option ascii) (s : string) (n : nat)
    (g : groups) (k : cont) {struct r} : option R :=
  match r with
  | Eps => k prev s n g
  | Chr a =>
      match s with
      | String c s' => if Ascii.eqb c a then k (Some c) s' (S n) g else None
      | EmptyString => None
      end
  | Cls p =>
      match s with
      | String c s' => if p c then k (Some c) s' (S n) g else None
      | EmptyString => None
      end
  | WordB => if at_boundary prev s then k prev s n g else None
  | Seq r1 r2 =>
      run r1 prev s n g (fun prev' s' n' g' => run r2 prev' s' n' g' k)
  | Alt r1 r2 =>
      match run r1 prev s n g k with
      | Some x => Some x
      | None => run r2 prev s n g k
      end
  | Rep p lo hi => rep p lo hi prev s n (fun prev' s' n' => k prev' s' n' g)
  | Grp i r1 =>
      run r1 prev s n g
        (fun prev' s' n' g' => k prev' s' n' ((i, substring 0 (n' - n) s) :: g'))
  end.

End Matcher.

(** Groups and match results whose captured texts are made of characters
    satisfying [p]. *)
Definition groups_ok (p : ascii -> bool) (g : groups) : Prop :=
  Forall (fun it => Str.all p it.2 = true) g.

Definition result_ok (p : ascii -> bool) (o : option (nat * groups)) : Prop :=
  match o with
  | Some (_, g) => groups_ok p g
  | None => True
  end.

(** All 256 characters, and inclusion of one class in another. *)
Definition all_ascii : list ascii := map ascii_of_nat (seq 0 256).

Definition class_sub (p q : ascii -> bool) : bool :=
  forallb (fun c => implb (p c) (q c)) all_ascii.

(** A syntactic check that every match of [r] consumes a character
    satisfying [q]. *)
Fixpoint needs (q : ascii -> bool) (r : regex) : bool :=
  match r with
  | Eps | WordB => false
  | Chr a => q a
  | Cls p => class_sub p q
  | Seq r1 r2 => needs q r1 || needs q r2
  | Alt r1 r2 => needs q r1 && needs q r2
  | Rep p lo _ => (1 <=? lo)%nat && class_sub p q
  | Grp _ r1 => needs q r1
  end.

(** A match of [r] starting exactly here: its length and its groups. *)
Definition match_at (r : regex) (prev : option ascii) (s : string)
    : option (nat * groups) :=
  run r prev s 0 [] (fun _ _ n g => Some (n, g)).

(** The scanning loop shared by [re.sub] and [re.findall]: [skip] counts the
    characters of the last match still to be passed over.  Where the
    pattern matches the empty string the match is reported and the scan
    moves on by one character (no pattern of [SVC.py] can do so). *)
Section Scan.
Context {A : Type} (r : regex).
Context (on_match : string -> groups -> A) (on_char : ascii -> A).

Fixpoint scan (prev : option ascii) (s : string) (skip : nat) {struct s} : list A :=
  match skip with
  | S m =>
      match s with
      | String c s' => scan (Some c) s' m
      | EmptyString => []
      end
  | 0 =>
      match match_at r prev s with
      | Some (len, g) =>
          on_match (substring 0 len s) g ::
          match s with
          | EmptyString => []
          | String c s' =>
              match len with
              | 0 => on_char c :: scan (Some c) s' 0
              | S m => scan (Some c) s' m
              end
          end
      | None =>
          match s with
          | EmptyString => []
          | String c s' => on_char c :: scan (Some c) s' 0
          end
      end
  end.

End Scan.

(** [re.sub(r, repl, s)] with a callable or expanded replacement. *)
Definition sub_with (r : regex) (repl : string -> groups -> string) (s : string) : string :=
  String.concat EmptyString
    (scan r repl (fun c => String c EmptyString) None s 0).

(** A replacement template: literal text and [\g<i>] references. *)
Inductive piece : Type :=
| Txt (t : string)
| Ref (i : nat).

Fixpoint expand (tpl : list piece) (g : groups) : string :=
  match tpl with
  | [] => EmptyString
  | Txt t :: tpl' => t +:+ expand tpl' g
  | Ref i :: tpl' => group i g +:+ expand tpl' g
  end.

Definition sub (r : regex) (tpl : list piece) (s : string) : string :=
  sub_with r (fun _ g => expand tpl g) s.

(** The literal text of a template is made of characters satisfying [p]. *)
Fixpoint template_ok (p : ascii -> bool) (tpl : list piece) : bool :=
  match tpl with
  | [] => true
  | Txt t :: tpl' => Str.all p t && template_ok p tpl'
  | Ref _ :: tpl' => template_ok p tpl'
  end.

(** [re.findall(r, s)] for a pattern without groups: the matched texts. *)
Definition findall (r : regex) (s : string) : list string :=
  omap id (scan r (fun m _ => Some m) (fun _ => None) None s 0).

End Re.

(** ** Python exceptions *)

Inductive exn : Type :=
| KeyError (key : string)
| IndexError
| ValueError (msg : string).

Inductive result (A : Type) : Type :=
| Ok (a : A)
| Raise (e : exn).
Arguments Ok {A} a.
Arguments Raise {A} e.

#[global] Instance result_ret : MRet result := fun A a => Ok a.
#[global] Instance result_bind : MBind result := fun A B f m =>
  match m with
  | Ok a => f a
  | Raise e => Raise e
  end.

Definition is_key_error {A : Type} (m : result A) : bool :=
  match m with
  | Raise (KeyError _) => true
  | _ => false
  end.

(** ** The rule set built by [Checker.__init__] *)

Module Rules.
Import Re.

(** filler words that will be removed (regex) *)
Definition fillers : list regex :=
  [ Lit "all right";
    Lit "alright";
    seqs [Plus (is_chr "m"); Lit " h"; Plus (is_chr "m")];      (* m+ hm+ *)
    Lit "okay";
    Lit "right";
    Lit "uh huh";
    Lit "yeah";
    Lit "yes";
    Lit "yup";

    Lit "aha";
    seqs [Chr "o"; Plus (is_chr "h")];                           (* oh+ *)
    seqs [Chr "h"; Plus (is_chr "m")];                           (* hm+ *)
    seqs [Chr "m"; Plus (is_chr "m")];                           (* mm+ *)
    seqs [Chr "u"; Plus (is_chr "m")];                           (* um+ *)

    Lit "actually";
    Lit "basically";
    Lit "i guess";
    Lit "i mean";
    Lit "i think";
    Lit "kinda";
    Lit "kind of";
    Lit "like";
    Lit "really";
    Lit "sorta";
    Lit "sort of";
    Lit "you know";

    Lit "a";
    Lit "an";
    Lit "the";

    Lit "and";
    Lit "in";
    Lit "it";
    Lit "of";
    Lit "on";
    Lit "or";
    Lit "so";
    Lit "that";
    Lit "to";

    Lit "am";

    Lit "excuse me";
    Lit "o'clock";
    Lit "so to speak";
    Lit "that's good";

    (* speaker tracking *)
    seqs [Chr "s"; Plus Char.is_digit]                           (* s\d+ *)
  ].

Definition metas : list string :=
  [ "applause";
    "automated voice";
    "background conversation";
    "chuckle";
    "end paren";
    "foreign language";
    "laughter";
    "music";
    "noise";
    "overlapping conversation";
    "pause";
    "start paren";
    "video playback";
    "vocalization"
  ].

(** ["\\b"+"\\b|\\b".join(fillers)+"\\b"]: every filler between two [\b],
    the alternatives in list order. *)
Definition _fillers : regex :=
  alts (map (fun f => seqs [WordB; f; WordB]) fillers).

(** ["\["+"\]|\[".join(metas)+"\]"]: every meta between brackets. *)
Definition _metas : regex :=
  alts (map (fun m => Lit ("[" +:+ m +:+ "]")) metas).

(** [\[*\d:\d+:\d+.\d\]*] *)
Definition timestamp : regex :=
  seqs [ Star (is_chr "["); Cls Char.is_digit; Chr ":"; Plus Char.is_digit;
         Chr ":"; Plus Char.is_digit; Cls Char.not_newline; Cls Char.is_digit;
         Star (is_chr "]") ].

(** [-|:] *)
Definition dash_or_colon : regex := Alt (Chr "-") (Chr ":").

(** [[^a-z0-9 ']] *)
Definition not_kept : regex := Cls Char.not_kept.

(** [\d+] *)
Definition digits : regex := Plus Char.is_digit.

(** [[\w']+], the [token_pattern] of the count vectorizer *)
Definition token_pattern : regex := Plus Char.is_token_char.

End Rules.

(** ** The [Checker] class *)

Module Checker.

(** The feature triple [[wmd, idx, ratio]]; Python floats are read as exact
    rationals. *)
Definition features : Type := Q * Q * Z.

(** The calls [predict] makes on the metric engine and on the classifier. *)
Inductive call : Type :=
| CallGenerate (str1 str2 : string)
| CallModel (values : features).

(** [self.eps = 1e-4] *)
Definition eps : Q := (1 # 10000)%Q.

Fixpoint Qsum (v : list Q) : Q :=
  match v with
  | [] => 0%Q
  | x :: v' => (x + Qsum v')%Q
  end.

Definition of_nat (n : nat) : Q := inject_Z (Z.of_nat n).

Definition count (w : string) (ws : list string) : nat :=
  length (filter (fun x => x = w) ws).

(** The files and collaborators the class is built around: the lines of
    [embed.vocab], the rows of [embed.dat], the pickled model with
    [str(model.predict(values)[0])] as its answer, and the imported
    [scribie_num2text.num_to_text], [fuzz.ratio], [cosine_similarity] and
    [pyemd.emd]. *)
Record artifacts : Type := {
  vocab_lines : list string;
  embeddings : nat -> list Q;
  model_predict : features -> string;
  num_to_text : string -> string;
  fuzz_ratio : string -> string -> Z;
  cosine_similarity : list (list Q) -> list (list Q);
  emd : list Q -> list Q -> list (list Q) -> Q
}.

Section Methods.

Variable self : artifacts.

Definition vocab_list : list string := map Str.strip (vocab_lines self).

(** [{w: i for i, w in enumerate(vocab_list)}]: a later line overwrites an
    earlier one with the same word. *)
Definition vocab_dict : gmap string nat :=
  foldl (fun d iw => <[iw.2 := iw.1]> d) ∅ (imap pair vocab_list).

(** [word in self.vocab_dict] *)
Definition in_vocab (word : string) : bool :=
  bool_decide (is_Some (vocab_dict !! word)).

(** [self.vocab_dict[word]] *)
Definition getitem (word : string) : result nat :=
  match vocab_dict !! word with
  | Some i => Ok i
  | None => Raise (KeyError word)
  end.

(** [[self.vocab_dict[word] for word in ws]] *)
Fixpoint getitems (ws : list string) : result (list nat) :=
  match ws with
  | [] => Ok []
  | w :: ws' =>
      i ← getitem w;
      idx ← getitems ws';
      Ok (i :: idx)
  end.

(** *** Metric engine *)

Definition _indexer (string1 string2 : string) : result Q :=
  let s1_features := Str.split string1 in
  let s2_features := Str.split string2 in
  s1_idx ← getitems s1_features;
  s2_idx ← getitems s2_features;
  let s1 := Z.of_nat (sum_list s1_idx) in
  let s2 := Z.of_nat (sum_list s2_idx) in
  let diff := (inject_Z (s2 - s1) / (inject_Z (s2 + s1) + eps))%Q in
  Ok diff.

Definition _str_ratio (string1 string2 : string) : Z :=
  fuzz_ratio self string1 string2.

(** [CountVectorizer(token_pattern='[\w\']+')]: a document is lowercased
    and its tokens are the matches of the token pattern. *)
Definition cv_tokens (doc : string) : list string :=
  Re.findall Rules.token_pattern (Str.lower doc).

(** [fit(docs).get_feature_names()]: the distinct tokens in sorted order;
    fitting raises when there is no token at all. *)
Definition cv_features (docs : list string) : list string :=
  merge_sort String.le (remove_dups (concat (map cv_tokens docs))).

Definition cv_fit (docs : list string) : result (list string) :=
  match cv_features docs with
  | [] => Raise (ValueError "empty vocabulary")
  | fs => Ok fs
  end.

(** [transform([doc]).toarray().ravel().astype(np.float64)] *)
Definition cv_transform (feats : list string) (doc : string) : list Q :=
  map (fun f => of_nat (count f (cv_tokens doc))) feats.

(** [v /= (v.sum()+self.eps)] *)
Definition normalize (v : list Q) : list Q :=
  let total := (Qsum v + eps)%Q in
  map (fun x => (x / total)%Q) v.

(** [_wmd_getter] up to the two normalized flow vectors. *)
Definition wmd_flows (string1 string2 : string)
    : result (list (list Q) * list Q * list Q) :=
  feats ← cv_fit [string1; string2];
  idx ← getitems feats;
  let W_ := map (embeddings self) idx in
  let v_1 := cv_transform feats string1 in
  let v_2 := cv_transform feats string2 in
  Ok (W_, normalize v_1, normalize v_2).

Definition _wmd_getter (string1 string2 : string) : result Q :=
  '(W_, v_1, v_2) ← wmd_flows string1 string2;
  let D_cosine := map (map (fun x => (1 - x)%Q)) (cosine_similarity self W_) in
  Ok (emd self v_1 v_2 D_cosine).

Definition _generate (str1 str2 : string) : result features :=
  wmd ← _wmd_getter str1 str2;
  idx ← _indexer str1 str2;
  let ratio := _str_ratio str1 str2 in
  Ok (wmd, idx, ratio).

(** *** Normalizer *)

Definition _oov_clean (str : string) : string :=
  let no_oov := Str.join " " (filter (fun word => in_vocab word) (Str.split str)) in
  no_oov.

(** The words the vocabulary filter keeps. *)
Definition kept (str : string) : list string :=
  filter (fun word => in_vocab word) (Str.split str).

(** The replacement text of [re.sub(num,word,string)] is a number spelled
    in words, with no backslash for the template syntax to interpret. *)
Definition _num_replace (str : string) : string :=
  let nums := Re.findall Rules.digits str in
  let words := map (fun num => " " +:+ num_to_text self num +:+ " ") nums in
  foldl (fun str nw => Re.sub (Re.Lit nw.1) [Re.Txt nw.2] str)
        str (zip nums words).

Import Re.

(** lowercase, timestamps, dashes and colons, metas, other characters *)
Definition strip_markup (text : string) : string :=
  let text := Str.lower text in
  let text := sub Rules.timestamp [] text in
  let text := sub Rules.dash_or_colon [Txt " "] text in
  let text := sub Rules._metas [] text in
  let text := sub Rules.not_kept [] text in
  text.

(** certain casual forms and contracted forms *)
Definition expand_contractions (text : string) : string :=
  let text := sub (Seq (Lit "'ti") (Rep (is_chr "l") 1 (Some 2))) [Txt "until"] text in
  let text := sub (Lit "'em") [Txt "them"] text in
  let text := sub (Lit "'cause") [Txt "because"] text in
  let text := sub (Seq (Grp 1 (Alt (Chr "d") (Chr "g"))) (Lit "oin'"))
                  [Ref 1; Txt "oing "] text in
  let text := sub (Lit "'m") [Txt " am"] text in
  let text := sub (Lit "'ve") [Txt " have"] text in
  let text := sub (Lit "'ll") [Txt " will"] text in
  let text := sub (Lit "can't") [Txt "cannot"] text in
  let text := sub (Lit "won't") [Txt "will not"] text in
  let text := sub (Lit "ain't") [Txt "are not"] text in
  let text := sub (Lit "n't") [Txt " not"] text in
  let text := sub (Seq (Lit "'s") WordB) [] text in
  let text := sub (Seq (Lit "'d") WordB) [] text in
  text.

(** ordinals *)
Definition ordinals (text : string) : string :=
  let text := sub (Seq (Grp 1 (Star Char.is_digit)) (Grp 2 (Lit "1st")))
                  [Ref 1; Txt "0 first"] text in
  let text := sub (Seq (Grp 1 (Star Char.is_digit)) (Grp 2 (Lit "2nd")))
                  [Ref 1; Txt "0 second"] text in
  let text := sub (Seq (Grp 1 (Star Char.is_digit)) (Grp 2 (Lit "3rd")))
                  [Ref 1; Txt "0 third"] text in
  let text := sub (Seq (Grp 1 (Plus Char.is_digit)) (Grp 2 (Lit "th")))
                  [Ref 1] text in
  text.

(** remove fillers *)
Definition remove_fillers (text : string) : string :=
  sub Rules._fillers [] text.

(** Everything the loop body of [_cleaner] does before [_oov_clean]. *)
Definition rewrite_text (text : string) : string :=
  let text := strip_markup text in
  let text := expand_contractions text in
  let text := ordinals text in
  let text := remove_fillers text in
  let text := _num_replace text in
  text.

(** The loop body of [_cleaner]. *)
Definition clean_text (text : string) : string :=
  let text := rewrite_text text in
  let clean := _oov_clean text in
  clean.

Definition _cleaner (strings : list string) : list string :=
  map clean_text strings.

(** The Number Expander as the specification words it: every maximal
    digit run is replaced where it stands by its words between two
    spaces. *)
Definition expand_digit_runs (str : string) : string :=
  sub_with Rules.digits (fun num _ => " " +:+ num_to_text self num +:+ " ") str.

(** The cascade with filler removal and contraction expansion exchanged. *)
Definition rewrite_text_swapped (text : string) : string :=
  let text := strip_markup text in
  let text := remove_fillers text in
  let text := ordinals text in
  let text := expand_contractions text in
  let text := _num_replace text in
  text.

Definition clean_text_swapped (text : string) : string :=
  _oov_clean (rewrite_text_swapped text).

(** *** Decision wrapper *)

(** One turn of the loop of [predict] on the row [row_]: the prediction
    appended, with the calls made on the way. *)
Definition predict_row (row_ : string * string) : list call * result string :=
  let row := _cleaner [row_.1; row_.2] in
  match row with
  | [s1; s2] =>
      (* complete deletions are considered minor *)
      if Str.is_empty s2 then ([], Ok "1")
      (* empty first string with non-empty second is counted as major *)
      else if Str.is_empty s1 then ([], Ok "2")
      (* predict based on the trained SVC *)
      else
        match _generate s1 s2 with
        | Ok values =>
            ([CallGenerate s1 s2; CallModel values], Ok (model_predict self values))
        | Raise e => ([CallGenerate s1 s2], Raise e)
        end
  | _ => ([], Raise IndexError)
  end.

(** [predict] on the rows of the TSV file: the predictions joined by
    commas, or the first exception. *)
Fixpoint predict_rows (rows : list (string * string))
    : list call * result (list string) :=
  match rows with
  | [] => ([], Ok [])
  | row_ :: rows' =>
      match predict_row row_ with
      | (cs, Ok p) =>
          let '(cs', ps) := predict_rows rows' in
          (cs ++ cs', ps' ← ps; Ok (p :: ps'))
      | (cs, Raise e) => (cs, Raise e)
      end
  end.

Definition predict (rows : list (string * string)) : list call * result string :=
  let '(cs, ps) := predict_rows rows in
  (cs, predictions ← ps; Ok (Str.join "," predictions)).

(** The numbers spelled out by [num_to_text] are plain text. *)
Definition plain_numbers : Prop :=
  forall num, Str.all Char.is_plain (num_to_text self num) = true.

(** The sum of the vocabulary indices of the tokens of a string. *)
Definition index_sum (str : string) : nat :=
  sum_list (omap (fun word => vocab_dict !! word) (Str.split str)).

End Methods.

(** Small instances of the artifacts, to run the methods on: a vocabulary
    file with the given lines, and a table for the numbers spelled out. *)
Definition small_num_to_text (num : string) : string :=
  match num with
  | "0" => "zero"
  | "1" => "one"
  | "2" => "two"
  | "12" => "twelve"
  | "21" => "twenty one"
  | _ => "many"
  end.

Definition small (lines : list string) : artifacts :=
  {| vocab_lines := lines;
     embeddings := fun _ => [];
     model_predict := fun _ => "2";
     num_to_text := small_num_to_text;
     fuzz_ratio := fun _ _ => 0%Z;
     cosine_similarity := fun W_ => map (fun _ => map (fun _ => 0%Q) W_) W_;
     emd := fun _ _ _ => 0%Q |}.

End Checker.

(** ** Auxiliary functions the properties are stated with *)

(** The position of the last occurrence of a word in a list. *)
Fixpoint last_index (w : string) (ws : list string) : option nat :=
  match ws with
  | [] => None
  | x :: ws' =>
      match last_index w ws' with
      | Some j => Some (S j)
      | None => if decide (x = w) then Some 0%nat else None
      end
  end.

(** The characters a text keeps through the cleaning: letters, digits and
    the apostrophe. *)
Definition is_content (c : ascii) : bool :=
  Char.is_lower c || Char.is_upper c || Char.is_digit c || Char.is_apostrophe c.

(** The first of a list of patterns to match at a position. *)
Fixpoint first_match (rs : list Re.regex) (prev : option ascii) (s : string)
    : option (nat * Re.groups) :=
  match rs with
  | [] => None
  | r :: rs' =>
      match Re.match_at r prev s with
      | Some x => Some x
      | None => first_match rs' prev s
      end
  end.

(** The filler list without its entries ["so to speak"] and
    ["that's good"], and the pattern built from it as [_fillers] is. *)
Definition live_fillers : list Re.regex :=
  take 41 Rules.fillers ++ drop 43 Rules.fillers.

Definition _live_fillers : Re.regex :=
  Re.alts (map (fun f => Re.seqs [Re.WordB; f; Re.WordB]) live_fillers).

(** * Properties *)

(** ** Strings *)

Module StrFacts.
Import Str.

Lemma app_nil_l (s : string) : "" +:+ s = s.
Proof. done. Qed.

Lemma app_cons (c : ascii) (s t : string) : String c s +:+ t = String c (s +:+ t).
Proof. done. Qed.

Lemma app_nil_r (s : string) : s +:+ "" = s.
Proof. induction s as [|c s IH]; [done|]. by rewrite app_cons, IH. Qed.

Lemma app_assoc (s t u : string) : (s +:+ t) +:+ u = s +:+ (t +:+ u).
Proof. induction s as [|c s IH]; [done|]. by rewrite !app_cons, IH. Qed.

Lemma all_app p (s t : string) : all p (s +:+ t) = all p s && all p t.
Proof.
  induction s as [|c s IH]; [done|].
  rewrite app_cons. cbn. rewrite IH. by rewrite andb_assoc.
Qed.

Lemma flush_word p (acc : string) :
  all p acc = true -> Forall (word p) (flush acc).
Proof.
  intros Hacc. unfold flush. destruct acc; cbn; constructor; [|constructor].
  split; [done|exact Hacc].
Qed.

Lemma runs_acc_words p (s acc : string) :
  all p acc = true -> Forall (word p) (runs_acc p acc s).
Proof.
  revert acc. induction s as [|c s IH]; intros acc Hacc; cbn.
  - by apply flush_word.
  - destruct (p c) eqn:Hc.
    + apply IH. rewrite all_app. cbn. by rewrite Hacc, Hc.
    + apply Forall_app. split; [by apply flush_word|]. by apply IH.
Qed.

Lemma runs_words p (s : string) : Forall (word p) (runs p s).
Proof. by apply runs_acc_words. Qed.

(** Reading on through characters of the current run. *)
Lemma runs_acc_app p (w acc s : string) :
  all p w = true -> runs_acc p acc (w +:+ s) = runs_acc p (acc +:+ w) s.
Proof.
  revert acc. induction w as [|c w IH]; intros acc Hw.
  - by rewrite app_nil_l, app_nil_r.
  - cbn in Hw. apply andb_prop in Hw as [Hc Hw].
    rewrite app_cons. cbn [runs_acc]. rewrite Hc. rewrite IH by done.
    by rewrite app_assoc.
Qed.

(** Joining words with a separator outside [p] and cutting the result
    again gives the words back. *)
Lemma runs_join p (sep : ascii) (ws : list string) :
  p sep = false -> Forall (word p) ws ->
  runs p (join (String sep "") ws) = ws.
Proof.
  intros Hsep. induction 1 as [|w ws [Hne Hw] Hws IH]; [done|].
  unfold runs, join in *. destruct ws as [|w' ws].
  - cbn [String.concat]. rewrite <- (app_nil_r w) at 1.
    rewrite runs_acc_app, app_nil_l by done.
    cbn. destruct w; done.
  - change (String.concat (String sep "") (w :: w' :: ws))
      with (w +:+ String sep (String.concat (String sep "") (w' :: ws))).
    rewrite runs_acc_app, app_nil_l by done. cbn [runs_acc]. rewrite Hsep.
    rewrite IH. destruct w; done.
Qed.

Lemma split_words (s : string) : Forall (word Char.nonspace) (split s).
Proof. apply runs_words. Qed.

Lemma split_join (ws : list string) :
  Forall (word Char.nonspace) ws -> split (join " " ws) = ws.
Proof. intros Hws. by apply (runs_join _ " "%char). Qed.

End StrFacts.

Module StripFacts.
Import Str StrFacts.

Import Char.

Lemma lstrip_word (w s : string) : word nonspace w -> lstrip (w +:+ s) = w +:+ s.
Proof.
  intros [Hne Hw]. destruct w as [|c w]; [done|].
  cbn in Hw. apply andb_prop in Hw as [Hc _].
  rewrite app_cons. cbn. unfold nonspace in Hc. by destruct (is_space c).
Qed.

Lemma rstrip_word (w : string) : all nonspace w = true -> rstrip w = w.
Proof.
  induction w as [|c w IH]; [done|]. cbn. intros [Hc Hw]%andb_prop.
  rewrite IH by done. destruct w; [|done].
  unfold nonspace in Hc. by destruct (is_space c).
Qed.

Lemma rstrip_app (u t : string) :
  rstrip t = t -> t <> "" -> rstrip (u +:+ t) = u +:+ t.
Proof.
  intros Ht Hne. induction u as [|c u IH]; [by rewrite app_nil_l|].
  rewrite app_cons. cbn. rewrite IH.
  destruct (u +:+ t) eqn:E; [|done].
  destruct u; [by rewrite app_nil_l in E|by rewrite app_cons in E].
Qed.

Lemma join_nonempty (w : string) (ws : list string) :
  w <> "" -> join " " (w :: ws) <> "".
Proof.
  intros Hne. unfold join. destruct ws; cbn [String.concat]; [done|].
  destruct w; [done|]. by rewrite app_cons.
Qed.

(** A single-space join of words has no whitespace at either end. *)
Lemma strip_join (ws : list string) :
  Forall (word nonspace) ws -> strip (join " " ws) = join " " ws.
Proof.
  intros Hws. unfold strip.
  assert (lstrip (join " " ws) = join " " ws) as ->.
  { destruct Hws as [|w ws Hw Hws]; [done|]. unfold join.
    destruct ws; cbn [String.concat].
    - rewrite <- (app_nil_r w). by apply lstrip_word.
    - by apply lstrip_word. }
  induction Hws as [|w ws [Hne Hw] Hws IH]; [done|].
  unfold join in *. destruct ws as [|w' ws]; cbn [String.concat].
  - by apply rstrip_word.
  - apply rstrip_app.
    + change (rstrip (" " +:+ String.concat " " (w' :: ws))
              = " " +:+ String.concat " " (w' :: ws)).
      apply rstrip_app; [exact IH|].
      apply (join_nonempty w' ws). by inversion Hws as [|?? [? _]].
    + done.
Qed.

End StripFacts.

(** ** The matcher *)

Module ReFacts.
Import Str StrFacts Re.

Lemma rep_greedy {R : Type} (p : ascii -> bool) (f : nat -> R)
    (s : string) (lo : nat) (prev : option ascii) (n : nat) :
  rep p lo None prev s n (fun _ _ n' => Some (f n'))
  = if (lo <=? span p s)%nat then Some (f (n + span p s)%nat) else None.
Proof.
  revert lo prev n. induction s as [|c s IH]; intros lo prev n; cbn [rep span].
  - destruct lo; cbn; [by rewrite Nat.add_0_r|done].
  - destruct (p c); cbn [andb may_take fmap option_fmap option_map].
    + rewrite IH. destruct lo as [|lo]; cbn [Nat.pred].
      * cbn. by rewrite Nat.add_succ_r.
      * change (S lo <=? S (span p s))%nat with (lo <=? span p s)%nat.
        destruct (lo <=? span p s)%nat; [by rewrite Nat.add_succ_r|done].
    + destruct lo; cbn; [by rewrite Nat.add_0_r|done].
Qed.

Lemma match_at_plus (p : ascii -> bool) (prev : option ascii) (s : string) :
  match_at (Plus p) prev s
  = if (1 <=? span p s)%nat then Some (span p s, []) else None.
Proof.
  unfold match_at, Plus. cbn [run].
  exact (rep_greedy p (fun n => (n, [])) s 1 prev 0).
Qed.

Lemma substring_cons (c : ascii) (s : string) (m : nat) :
  substring 0 (S m) (String c s) = String c (substring 0 m s).
Proof. done. Qed.

Lemma substring_zero (s : string) : substring 0 0 s = "".
Proof. by destruct s. Qed.

(** The scan of [findall] on [p+], at a position outside a match and at a
    position inside one, against the reading of runs. *)
Lemma scan_plus_runs (p : ascii -> bool) (s : string) :
  (forall prev,
     omap id (scan (Plus p) (fun m _ => Some m) (fun _ => None) prev s 0)
     = runs_acc p "" s) /\
  (forall prev acc, acc <> "" ->
     runs_acc p acc s
     = (acc +:+ substring 0 (span p s) s)
       :: omap id (scan (Plus p) (fun m _ => Some m) (fun _ => None)
                     prev s (span p s))).
Proof.
  induction s as [|c s [IH0 IH1]]; split.
  - intros prev. done.
  - intros prev acc Hacc. cbn. rewrite app_nil_r. by destruct acc.
  - intros prev. cbn [scan]. rewrite match_at_plus. cbn [span runs_acc].
    destruct (p c) eqn:Hc.
    + cbn [Nat.leb]. rewrite substring_cons. cbn [omap list_omap id].
      rewrite app_nil_l. by rewrite (IH1 (Some c) (String c "")).
    + cbn [Nat.leb omap list_omap id flush is_empty app]. apply IH0.
  - intros prev acc Hacc. cbn [span runs_acc]. destruct (p c) eqn:Hc.
    + cbn [scan]. rewrite substring_cons.
      rewrite (IH1 (Some c) (acc +:+ String c "")).
      * by rewrite app_assoc.
      * destruct acc; [done|]. by rewrite app_cons.
    + cbn [scan]. rewrite match_at_plus. cbn [span]. rewrite Hc.
      cbn [Nat.leb omap list_omap id]. rewrite substring_zero, app_nil_r.
      rewrite IH0. by destruct acc.
Qed.

Lemma all_substring (p : ascii -> bool) (s : string) (i j : nat) :
  all p s = true -> all p (substring i j s) = true.
Proof.
  revert i j. induction s as [|c s IH]; intros i j Hs.
  - by destruct i, j.
  - cbn in Hs. apply andb_prop in Hs as [Hc Hs].
    destruct i as [|i]; [destruct j as [|j]|]; cbn; [done| |by apply IH].
    by rewrite Hc, IH.
Qed.

Lemma all_concat (p : ascii -> bool) (l : list string) :
  Forall (fun t => all p t = true) l -> all p (String.concat "" l) = true.
Proof.
  induction 1 as [|t l Ht Hl IH]; [done|]. cbn [String.concat].
  destruct l as [|t' l]; [done|].
  rewrite all_app, Ht, app_nil_l. exact IH.
Qed.

Lemma group_ok (p : ascii -> bool) (i : nat) (g : groups) :
  groups_ok p g -> all p (group i g) = true.
Proof.
  induction 1 as [|[j t] g Ht Hg IH]; [done|]. cbn [group].
  by destruct (i =? j)%nat.
Qed.

Lemma expand_ok (p : ascii -> bool) (tpl : list piece) (g : groups) :
  template_ok p tpl = true -> groups_ok p g -> all p (expand tpl g) = true.
Proof.
  intros Htpl Hg. induction tpl as [|[t|i] tpl IH]; [done| |]; cbn [expand].
  - cbn in Htpl. apply andb_prop in Htpl as [Ht Htpl].
    by rewrite all_app, Ht, IH.
  - cbn in Htpl. by rewrite all_app, group_ok, IH.
Qed.

Section Invariant.
Variable p : ascii -> bool.

Lemma rep_inv (q : ascii -> bool) (s : string) :
  forall lo hi prev n (k : option ascii -> string -> nat -> option (nat * groups)),
  all p s = true ->
  (forall prev' s' n', all p s' = true -> result_ok p (k prev' s' n')) ->
  result_ok p (rep q lo hi prev s n k).
Proof.
  induction s as [|c s IH]; intros lo hi prev n k Hs Hk; cbn [rep].
  - destruct lo; [by apply Hk|done].
  - assert (result_ok p match lo with 0%nat => k prev (String c s) n | S _ => None end)
      as Hstop by (destruct lo; [by apply Hk|done]).
    cbn in Hs. apply andb_prop in Hs as [_ Hs].
    destruct (q c && may_take hi); [|exact Hstop].
    specialize (IH (Nat.pred lo) (Nat.pred <$> hi) (Some c) (S n) k Hs Hk).
    destruct (rep q (Nat.pred lo) (Nat.pred <$> hi) (Some c) s (S n) k);
      [exact IH|exact Hstop].
Qed.

Lemma run_inv (r : regex) :
  forall prev s n g (k : cont),
  all p s = true -> groups_ok p g ->
  (forall prev' s' n' g',
     all p s' = true -> groups_ok p g' -> result_ok p (k prev' s' n' g')) ->
  result_ok p (run r prev s n g k).
Proof.
  induction r as [|a|q| |r1 IH1 r2 IH2|r1 IH1 r2 IH2|q lo hi|i r1 IH1];
    intros prev s n g k Hs Hg Hk; cbn [run].
  - by apply Hk.
  - destruct s as [|c s]; [done|]. destruct (Ascii.eqb c a); [|done].
    cbn in Hs. apply andb_prop in Hs as [_ Hs]. by apply Hk.
  - destruct s as [|c s]; [done|]. destruct (q c); [|done].
    cbn in Hs. apply andb_prop in Hs as [_ Hs]. by apply Hk.
  - destruct (at_boundary prev s); [by apply Hk|done].
  - apply IH1; [done..|]. intros prev' s' n' g' Hs' Hg'. by apply IH2.
  - specialize (IH1 prev s n g k Hs Hg Hk).
    destruct (run r1 prev s n g k); [exact IH1|]. by apply IH2.
  - apply rep_inv; [done|]. intros prev' s' n' Hs'. by apply Hk.
  - apply IH1; [done..|]. intros prev' s' n' g' Hs' Hg'. apply Hk; [done|].
    constructor; [|done]. by apply all_substring.
Qed.

Lemma match_at_inv (r : regex) (prev : option ascii) (s : string) :
  all p s = true -> result_ok p (match_at r prev s).
Proof.
  intros Hs. unfold match_at. apply run_inv; [done|constructor|].
  intros _ _ n g _ Hg. exact Hg.
Qed.

(** Every piece the scan emits is made of characters satisfying [p] when
    the text is and the two callbacks keep to it. *)
Lemma scan_inv (r : regex) (on_match : string -> groups -> string)
    (on_char : ascii -> string) (s : string) :
  (forall m g, all p m = true -> groups_ok p g -> all p (on_match m g) = true) ->
  (forall c, p c = true -> all p (on_char c) = true) ->
  forall prev skip,
  all p s = true ->
  Forall (fun t => all p t = true) (scan r on_match on_char prev s skip).
Proof.
  intros Hm Hc. induction s as [|c s IH]; intros prev skip Hs.
  - destruct skip; cbn [scan]; [|constructor].
    pose proof (match_at_inv r prev "" Hs) as Hr.
    destruct (match_at r prev "") as [[len g]|]; constructor; [|constructor].
    apply Hm; [by apply all_substring|exact Hr].
  - pose proof Hs as Hcs. cbn in Hcs. apply andb_prop in Hcs as [Hpc Hs'].
    destruct skip; cbn [scan]; [|by apply IH].
    pose proof (match_at_inv r prev (String c s) Hs) as Hr.
    destruct (match_at r prev (String c s)) as [[len g]|].
    + constructor; [apply Hm; [by apply all_substring|exact Hr]|].
      destruct len; [constructor; [by apply Hc|]|]; by apply IH.
    + constructor; [by apply Hc|by apply IH].
Qed.

(** [re.sub] on a text over [p] with a template over [p] gives a text over
    [p]. *)
Lemma sub_inv (r : regex) (tpl : list piece) (s : string) :
  template_ok p tpl = true -> all p s = true -> all p (sub r tpl s) = true.
Proof.
  intros Htpl Hs. unfold sub, sub_with. apply all_concat, scan_inv; [| |done].
  - intros m g _ Hg. by apply expand_ok.
  - intros c Hc. cbn. by rewrite Hc.
Qed.

End Invariant.

(** [re.findall] of a repeated class finds the maximal runs of the class. *)
Lemma findall_plus (p : ascii -> bool) (s : string) :
  findall (Plus p) s = runs p s.
Proof. apply scan_plus_runs. Qed.

(** *** Patterns that cannot match *)

Lemma in_all_ascii (c : ascii) : In c all_ascii.
Proof.
  unfold all_ascii. apply in_map_iff. exists (nat_of_ascii c). split.
  - apply ascii_nat_embedding.
  - apply in_seq. pose proof (nat_ascii_bounded c). lia.
Qed.

Lemma class_sub_spec (p q : ascii -> bool) (c : ascii) :
  class_sub p q = true -> p c = true -> q c = true.
Proof.
  unfold class_sub. rewrite forallb_forall. intros H Hp.
  specialize (H c (in_all_ascii c)). by rewrite Hp in H.
Qed.

Section NoMatch.
Variable q : ascii -> bool.

(** Texts without any character satisfying [q]. *)
Local Abbreviation lacking s := (all (fun c => negb (q c)) s = true).

Lemma rep_calls_on_clear {R : Type} (p : ascii -> bool) (s : string) :
  forall lo hi prev n (k : option ascii -> string -> nat -> option R),
  lacking s ->
  (forall prev' s' n', lacking s' -> k prev' s' n' = None) ->
  rep p lo hi prev s n k = None.
Proof.
  induction s as [|c s IH]; intros lo hi prev n k Hs Hk; cbn [rep].
  - destruct lo; [by apply Hk|done].
  - assert (match lo with 0%nat => k prev (String c s) n | S _ => None end = None)
      as Hstop by (destruct lo; [by apply Hk|done]).
    cbn in Hs. apply andb_prop in Hs as [_ Hs].
    destruct (p c && may_take hi); [|exact Hstop].
    by rewrite IH.
Qed.

(** A match can only go through to a continuation on a text lacking [q]. *)
Lemma run_calls_on_clear {R : Type} (r : regex) :
  forall prev s n g (k : @cont R),
  lacking s ->
  (forall prev' s' n' g', lacking s' -> k prev' s' n' g' = None) ->
  run r prev s n g k = None.
Proof.
  induction r as [|a|p| |r1 IH1 r2 IH2|r1 IH1 r2 IH2|p lo hi|i r1 IH1];
    intros prev s n g k Hs Hk; cbn [run].
  - by apply Hk.
  - destruct s as [|c s]; [done|]. destruct (Ascii.eqb c a); [|done].
    cbn in Hs. apply andb_prop in Hs as [_ Hs]. by apply Hk.
  - destruct s as [|c s]; [done|]. destruct (p c); [|done].
    cbn in Hs. apply andb_prop in Hs as [_ Hs]. by apply Hk.
  - destruct (at_boundary prev s); [by apply Hk|done].
  - apply IH1; [done|]. intros prev' s' n' g' Hs'. by apply IH2.
  - rewrite IH1 by done. by apply IH2.
  - apply rep_calls_on_clear; [done|]. intros prev' s' n' Hs'. by apply Hk.
  - apply IH1; [done|]. intros prev' s' n' g' Hs'. by apply Hk.
Qed.

(** A pattern that needs a [q] character does not match in a text lacking [q]. *)
Lemma run_needs {R : Type} (r : regex) :
  needs q r = true ->
  forall prev s n g (k : @cont R), lacking s -> run r prev s n g k = None.
Proof.
  induction r as [|a|p| |r1 IH1 r2 IH2|r1 IH1 r2 IH2|p lo hi|i r1 IH1];
    cbn [needs]; intros Hr prev s n g k Hs; cbn [run]; try discriminate.
  - destruct s as [|c s]; [done|]. destruct (Ascii.eqb_spec c a) as [->|]; [|done].
    cbn in Hs. by rewrite Hr in Hs.
  - destruct s as [|c s]; [done|]. destruct (p c) eqn:Hp; [|done].
    cbn in Hs. by rewrite (class_sub_spec p q c Hr Hp) in Hs.
  - apply orb_prop in Hr as [Hr|Hr]; [by apply IH1|].
    apply run_calls_on_clear; [done|]. intros prev' s' n' g' Hs'. by apply IH2.
  - apply andb_prop in Hr as [Hr1 Hr2]. rewrite IH1 by done. by apply IH2.
  - apply andb_prop in Hr as [Hlo Hp]. destruct lo as [|lo]; [done|].
    destruct s as [|c s]; cbn [rep]; [done|].
    destruct (p c) eqn:Hpc; [|done].
    cbn in Hs. by rewrite (class_sub_spec p q c Hp Hpc) in Hs.
  - by apply IH1.
Qed.

Lemma concat_cons (t : string) (l : list string) :
  String.concat "" (t :: l) = t +:+ String.concat "" l.
Proof. destruct l; cbn [String.concat]; [by rewrite app_nil_r|done]. Qed.

Lemma scan_needs {A : Type} (r : regex) (on_match : string -> groups -> A)
    (on_char : ascii -> A) (s : string) :
  needs q r = true -> lacking s ->
  forall prev,
  scan r on_match on_char prev s 0 = map on_char (list_ascii_of_string s).
Proof.
  intros Hr. induction s as [|c s IH]; intros Hs prev; cbn [scan].
  - unfold match_at. by rewrite run_needs.
  - unfold match_at. rewrite run_needs by done.
    cbn in Hs. apply andb_prop in Hs as [_ Hs]. cbn. by rewrite IH.
Qed.

(** [re.sub] and [re.findall] with such a pattern on a text lacking [q]. *)
Lemma sub_needs (r : regex) (tpl : list piece) (s : string) :
  needs q r = true -> lacking s -> sub r tpl s = s.
Proof.
  intros Hr Hs. unfold sub, sub_with. rewrite scan_needs by done.
  clear. induction s as [|c s IH]; [done|].
  cbn [list_ascii_of_string map]. rewrite concat_cons, IH. done.
Qed.

Lemma findall_needs (r : regex) (s : string) :
  needs q r = true -> lacking s -> findall r s = [].
Proof.
  intros Hr Hs. unfold findall. rewrite scan_needs by done.
  clear. induction (list_ascii_of_string s) as [|c l IH]; [done|]. exact IH.
Qed.

End NoMatch.

(** Removing the matches of a class leaves the characters outside it. *)
Lemma sub_class_removed (q : ascii -> bool) (s : string) :
  all (fun c => negb (q c)) (sub (Cls q) [] s) = true.
Proof.
  unfold sub, sub_with. apply all_concat. generalize (@None ascii).
  induction s as [|c s IH]; intros prev; cbn [scan]; [constructor|].
  unfold match_at. cbn [run]. destruct (q c) eqn:Hc.
  - constructor; [done|]. apply IH.
  - constructor; [cbn; by rewrite Hc|]. apply IH.
Qed.

Lemma all_impl (p q : ascii -> bool) (s : string) :
  (forall c, p c = true -> q c = true) -> all p s = true -> all q s = true.
Proof.
  intros Hpq. induction s as [|c s IH]; [done|]. cbn.
  intros [Hc Hs]%andb_prop. by rewrite (Hpq c Hc), IH.
Qed.

Lemma runs_acc_all (p q : ascii -> bool) (s acc : string) :
  all p acc = true -> all p s = true ->
  Forall (fun w => all p w = true) (runs_acc q acc s).
Proof.
  revert acc. induction s as [|c s IH]; intros acc Hacc Hs; cbn [runs_acc].
  - unfold flush. destruct (is_empty acc); repeat constructor. done.
  - cbn in Hs. apply andb_prop in Hs as [Hc Hs]. destruct (q c).
    + apply IH; [|done]. rewrite all_app, Hacc. cbn. by rewrite Hc.
    + apply Forall_app. split; [|by apply IH].
      unfold flush. destruct (is_empty acc); repeat constructor. done.
Qed.

Lemma join_all (p : ascii -> bool) (sep : string) (ws : list string) :
  all p sep = true -> Forall (fun w => all p w = true) ws ->
  all p (join sep ws) = true.
Proof.
  intros Hsep. induction 1 as [|w ws Hw Hws IH]; [done|].
  unfold join in *. cbn [String.concat]. destruct ws as [|w' ws]; [done|].
  by rewrite !all_app, Hw, Hsep, IH.
Qed.

End ReFacts.

(** ** The vocabulary and the vocabulary filter *)

Module VocabFacts.
Import Str StrFacts StripFacts Checker.

Section WithSelf.
Variable self : artifacts.

Lemma in_vocab_spec (w : string) :
  in_vocab self w = true <-> is_Some (vocab_dict self !! w).
Proof. unfold in_vocab. by rewrite bool_decide_eq_true. Qed.

Lemma in_vocab_false (w : string) :
  in_vocab self w = false <-> vocab_dict self !! w = None.
Proof.
  unfold in_vocab. rewrite bool_decide_eq_false.
  by rewrite <- eq_None_not_Some.
Qed.

Lemma foldl_insert_keys (g : nat -> string -> nat * string)
    (ws : list string) (d : gmap string nat) (w : string) :
  (forall i x, (g i x).2 = x) ->
  is_Some (foldl (fun d iw => <[iw.2 := iw.1]> d) d (imap g ws) !! w)
  <-> is_Some (d !! w) \/ w ∈ ws.
Proof.
  revert g d. induction ws as [|x ws IH]; intros g d Hg; cbn [imap foldl].
  - rewrite elem_of_nil. tauto.
  - rewrite IH by (intros i y; apply Hg).
    rewrite Hg, lookup_insert_is_Some', elem_of_cons. intuition congruence.
Qed.

(** The keys of the vocabulary dictionary are the stripped lines of the
    vocabulary file. *)
Lemma vocab_dict_keys (w : string) :
  is_Some (vocab_dict self !! w) <-> w ∈ vocab_list self.
Proof.
  unfold vocab_dict. rewrite foldl_insert_keys by done.
  rewrite lookup_empty, is_Some_alt. tauto.
Qed.

Lemma kept_words (str : string) : Forall (word Char.nonspace) (kept self str).
Proof.
  unfold kept. apply Forall_forall. intros w [_ Hw]%list_elem_of_filter.
  revert w Hw. apply Forall_forall. apply split_words.
Qed.

Lemma oov_clean_kept (str : string) : _oov_clean self str = join " " (kept self str).
Proof. done. Qed.

Lemma split_oov_clean (str : string) :
  split (_oov_clean self str) = kept self str.
Proof. rewrite oov_clean_kept. apply split_join, kept_words. Qed.

Lemma kept_in_vocab (str w : string) :
  w ∈ kept self str -> is_Some (vocab_dict self !! w).
Proof.
  unfold kept. intros [Hw _]%list_elem_of_filter.
  apply in_vocab_spec. by apply Is_true_true.
Qed.

Lemma filter_kept (str : string) :
  filter (fun word => in_vocab self word) (kept self str) = kept self str.
Proof.
  unfold kept. induction (split str) as [|w ws IH]; [done|].
  rewrite filter_cons. case_decide as Hw; [|exact IH].
  rewrite filter_cons. rewrite decide_True by done. by rewrite IH.
Qed.

(** The vocabulary filter leaves its own output alone. *)
Lemma oov_clean_idempotent (str : string) :
  _oov_clean self (_oov_clean self str) = _oov_clean self str.
Proof.
  rewrite (oov_clean_kept (_oov_clean self str)).
  unfold kept at 1. rewrite split_oov_clean.
  by rewrite filter_kept.
Qed.

End WithSelf.

End VocabFacts.

(** ** The Normalizer *)

Module NormalizerFacts.
Import Str StrFacts StripFacts Checker VocabFacts.

Section WithSelf.
Variable self : artifacts.

Lemma clean_text_kept (text : string) :
  clean_text self text = join " " (kept self (rewrite_text self text)).
Proof. done. Qed.

(** C3: whatever strings are cleaned, every whitespace-separated token of
    every cleaned string is a key of the vocabulary dictionary. *)
Theorem cleaner_tokens_in_vocab (strings : list string) :
  Forall (fun clean =>
            Forall (fun w => is_Some (vocab_dict self !! w)) (split clean))
         (_cleaner self strings).
Proof.
  unfold _cleaner. apply Forall_map, Forall_forall. intros text _.
  unfold clean_text. cbn zeta. rewrite split_oov_clean.
  apply Forall_forall. intros w Hw. by eapply kept_in_vocab.
Qed.

(** C10: every cleaned string is in canonical spacing form: it is the
    single-space join of its own tokens and stripping whitespace from its
    ends changes nothing. *)
Theorem cleaner_canonical_spacing (strings : list string) :
  Forall (fun clean => clean = join " " (split clean) /\ strip clean = clean)
         (_cleaner self strings).
Proof.
  unfold _cleaner. apply Forall_map, Forall_forall. intros text _.
  unfold clean_text. cbn zeta. split.
  - by rewrite split_oov_clean.
  - rewrite oov_clean_kept. apply strip_join, kept_words.
Qed.

(** *** Strings of lowercase letters and spaces *)

Lemma lower_letter (c : ascii) :
  Char.is_letter_or_blank c = true -> Char.lower c = c.
Proof.
  destruct c as [[] [] [] [] [] [] [] []]; vm_compute; (done || discriminate).
Qed.

Lemma lower_letters (s : string) :
  all Char.is_letter_or_blank s = true -> lower s = s.
Proof.
  induction s as [|c s IH]; [done|]. cbn. intros [Hc Hs]%andb_prop.
  by rewrite lower_letter, IH.
Qed.

Lemma letters_lack_others (s : string) :
  all Char.is_letter_or_blank s = true ->
  all (fun c => negb (Char.is_other c)) s = true.
Proof.
  apply ReFacts.all_impl. intros c Hc. unfold Char.is_other.
  by rewrite negb_involutive.
Qed.

Ltac silent_subs s H :=
  repeat (rewrite (ReFacts.sub_needs Char.is_other _ _ s);
          [|vm_compute; reflexivity|exact H]).

Lemma strip_markup_letters (s : string) :
  all Char.is_letter_or_blank s = true -> strip_markup s = s.
Proof.
  intros Hs. pose proof (letters_lack_others s Hs) as H.
  unfold strip_markup. cbv zeta. rewrite (lower_letters s Hs).
  by silent_subs s H.
Qed.

Lemma expand_contractions_letters (s : string) :
  all Char.is_letter_or_blank s = true -> expand_contractions s = s.
Proof.
  intros Hs. pose proof (letters_lack_others s Hs) as H.
  unfold expand_contractions. cbv zeta. by silent_subs s H.
Qed.

Lemma ordinals_letters (s : string) :
  all Char.is_letter_or_blank s = true -> ordinals s = s.
Proof.
  intros Hs. pose proof (letters_lack_others s Hs) as H.
  unfold ordinals. cbv zeta. by silent_subs s H.
Qed.

Lemma num_replace_letters (s : string) :
  all Char.is_letter_or_blank s = true -> _num_replace self s = s.
Proof.
  intros Hs. pose proof (letters_lack_others s Hs) as H.
  unfold _num_replace. cbv zeta.
  rewrite (ReFacts.findall_needs Char.is_other); [done|vm_compute; reflexivity|exact H].
Qed.

(** Only the filler rule can rewrite a string of lowercase letters and
    spaces. *)
Lemma rewrite_text_letters (s : string) :
  all Char.is_letter_or_blank s = true ->
  rewrite_text self s = _num_replace self (remove_fillers s).
Proof.
  intros Hs. unfold rewrite_text. cbv zeta.
  by rewrite strip_markup_letters, expand_contractions_letters,
    ordinals_letters.
Qed.

(** C8, amended: cleaning a cleaned string again returns it unchanged
    whenever the rewriting steps before the vocabulary filter leave it
    unchanged, and they do on a string of lowercase letters and spaces in
    which the filler rule finds nothing to remove. *)
Theorem cleaner_idempotent_when_rewriting_is_silent (text : string) :
  (rewrite_text self (clean_text self text) = clean_text self text ->
   clean_text self (clean_text self text) = clean_text self text) /\
  (all Char.is_letter_or_blank (clean_text self text) = true ->
   remove_fillers (clean_text self text) = clean_text self text ->
   clean_text self (clean_text self text) = clean_text self text).
Proof.
  assert (rewrite_text self (clean_text self text) = clean_text self text ->
          clean_text self (clean_text self text) = clean_text self text) as Hquiet.
  { intros Hquiet. unfold clean_text at 1. cbv zeta. rewrite Hquiet.
    unfold clean_text. cbv zeta. apply oov_clean_idempotent. }
  split; [exact Hquiet|]. intros Hs Hf. apply Hquiet.
  by rewrite rewrite_text_letters, Hf, num_replace_letters.
Qed.

(** *** Plain text: what the rewriting steps can leave in a string *)

Lemma kept_plain (c : ascii) : Char.is_kept c = true -> Char.is_plain c = true.
Proof.
  destruct c as [[] [] [] [] [] [] [] []]; vm_compute; (done || discriminate).
Qed.

Lemma strip_markup_kept (text : string) :
  all Char.is_kept (strip_markup text) = true.
Proof.
  unfold strip_markup. cbv zeta.
  eapply ReFacts.all_impl; [|apply (ReFacts.sub_class_removed Char.not_kept)].
  intros c. unfold Char.not_kept. by rewrite negb_involutive.
Qed.

Lemma expand_contractions_kept (text : string) :
  all Char.is_kept text = true ->
  all Char.is_kept (expand_contractions text) = true.
Proof.
  intros H. unfold expand_contractions. cbv zeta.
  repeat (apply ReFacts.sub_inv; [reflexivity|]). exact H.
Qed.

Lemma ordinals_kept (text : string) :
  all Char.is_kept text = true -> all Char.is_kept (ordinals text) = true.
Proof.
  intros H. unfold ordinals. cbv zeta.
  repeat (apply ReFacts.sub_inv; [reflexivity|]). exact H.
Qed.

Lemma remove_fillers_kept (text : string) :
  all Char.is_kept text = true -> all Char.is_kept (remove_fillers text) = true.
Proof. intros H. unfold remove_fillers. by apply ReFacts.sub_inv. Qed.

Lemma num_replace_plain (str : string) :
  plain_numbers self ->
  all Char.is_plain str = true -> all Char.is_plain (_num_replace self str) = true.
Proof.
  intros Hn. unfold _num_replace. cbv zeta.
  generalize (Re.findall Rules.digits str). intros nums. revert str.
  induction nums as [|num nums IH]; intros str Hstr; [done|].
  cbn [map zip zip_with foldl]. apply IH. apply ReFacts.sub_inv; [|done].
  cbn [Re.template_ok fst snd]. rewrite !all_app, Hn. done.
Qed.

Lemma rewrite_text_plain (text : string) :
  plain_numbers self -> all Char.is_plain (rewrite_text self text) = true.
Proof.
  intros Hn. unfold rewrite_text. cbv zeta. apply num_replace_plain; [done|].
  apply (ReFacts.all_impl Char.is_kept); [apply kept_plain|].
  apply remove_fillers_kept, ordinals_kept, expand_contractions_kept,
    strip_markup_kept.
Qed.

Lemma clean_text_plain (text : string) :
  plain_numbers self -> all Char.is_plain (clean_text self text) = true.
Proof.
  intros Hn. rewrite clean_text_kept. apply ReFacts.join_all; [done|].
  apply Forall_forall. intros w [_ Hw]%list_elem_of_filter. revert w Hw.
  apply Forall_forall. apply ReFacts.runs_acc_all; [done|].
  by apply rewrite_text_plain.
Qed.

Lemma split_clean_text (text : string) :
  split (clean_text self text) = kept self (rewrite_text self text).
Proof. apply split_oov_clean. Qed.

End WithSelf.

End NormalizerFacts.

(** ** The Decision Wrapper *)

Module DecisionFacts.
Import Str Checker.

Section WithSelf.
Variable self : artifacts.

Lemma is_empty_spec (s : string) : is_empty s = true <-> s = "".
Proof. by destruct s. Qed.

(** C1: a row whose second string cleans to the empty string is labelled
    "1", whatever the first; a row whose first string alone cleans to the
    empty string is labelled "2"; in both cases no call is made on the
    metric engine or on the model. *)
Theorem predict_row_degenerate (row_ : string * string) :
  let s1 := clean_text self row_.1 in
  let s2 := clean_text self row_.2 in
  (s2 = "" -> predict_row self row_ = ([], Ok "1")) /\
  (s2 <> "" -> s1 = "" -> predict_row self row_ = ([], Ok "2")) /\
  (s1 = "" -> s2 = "" -> predict_row self row_ = ([], Ok "1")).
Proof.
  intros s1 s2. unfold predict_row, _cleaner. cbn [map].
  fold s1 s2. repeat split.
  - intros ->. done.
  - intros Hs2 ->. destruct s2; done.
  - intros _ ->. done.
Qed.

End WithSelf.

End DecisionFacts.

(** ** Rules that need the regex engine run *)

Module CascadeFacts.
Import Str Checker VocabFacts.

Section WithSelf.
Variable self : artifacts.

(** C2 at the input ["1 12"]: the first digit run is replaced wherever its
    digits occur, also inside the later run, whose last digit stays. *)
Theorem num_replace_rewrites_inside_later_run :
  num_to_text self "1" = "one" ->
  num_to_text self "12" = "twelve" ->
  _num_replace self "1 12" = " one   one 2" /\
  expand_digit_runs self "1 12" = " one   twelve ".
Proof.
  intros H1 H12. split.
  - unfold _num_replace. cbv zeta.
    replace (Re.findall Rules.digits "1 12") with ["1"; "12"]
      by (vm_compute; reflexivity).
    cbn [map zip zip_with]. rewrite H1, H12. vm_compute. reflexivity.
  - unfold expand_digit_runs. cbv -[num_to_text String.append].
    rewrite H1, H12. vm_compute. reflexivity.
Qed.

(** C9: removing fillers before expanding contractions rewrites some input
    differently, and with "am" in the vocabulary it changes what the
    normalizer returns on some input. *)
Theorem filler_removal_and_contractions_do_not_commute :
  (exists text, rewrite_text self text <> rewrite_text_swapped self text) /\
  (in_vocab self "am" = true ->
   exists text, clean_text self text <> clean_text_swapped self text).
Proof.
  assert (rewrite_text self "'m" = " ") as E1 by (vm_compute; reflexivity).
  assert (rewrite_text_swapped self "'m" = " am") as E2
    by (vm_compute; reflexivity).
  split.
  - exists "'m". rewrite E1, E2. discriminate.
  - intros Ham. exists "'m".
    unfold clean_text, clean_text_swapped. cbv zeta. rewrite E1, E2.
    unfold _oov_clean. cbv zeta.
    replace (split " ") with (@nil string) by (vm_compute; reflexivity).
    replace (split " am") with ["am"] by (vm_compute; reflexivity).
    rewrite filter_nil, filter_cons, decide_True by (by apply Is_true_true).
    rewrite filter_nil. vm_compute. discriminate.
Qed.

End WithSelf.

(** C8 as stated fails: with "i" and "guess" in the vocabulary, "i a guess"
    is cleaned to "i guess", which is cleaned to the empty string. *)
Lemma cleaner_not_idempotent :
  clean_text (small ["i"; "guess"]) "i a guess" = "i guess" /\
  clean_text (small ["i"; "guess"]) "i guess" = "" /\
  clean_text (small ["i"; "guess"]) (clean_text (small ["i"; "guess"]) "i a guess")
  <> clean_text (small ["i"; "guess"]) "i a guess".
Proof. vm_compute. repeat split. discriminate. Qed.

End CascadeFacts.

(** ** The Metric Engine *)

Module MetricFacts.
Import Str Checker VocabFacts.

Lemma Qsum_div (v : list Q) (t : Q) :
  (Qsum (map (fun x => x / t) v) == Qsum v / t)%Q.
Proof.
  induction v as [|x v IH]; cbn [map Qsum].
  - unfold Qdiv. ring.
  - rewrite IH. unfold Qdiv. ring.
Qed.

Lemma Qsum_of_nat (l : list nat) :
  (Qsum (map of_nat l) == of_nat (sum_list l))%Q.
Proof.
  induction l as [|n l IH]; cbn [map Qsum sum_list sum_list_with]; [reflexivity|].
  rewrite IH. unfold of_nat. rewrite Nat2Z.inj_add, inject_Z_plus. reflexivity.
Qed.

Lemma of_nat_nonneg (n : nat) : (0 <= of_nat n)%Q.
Proof.
  unfold of_nat. change 0%Q with (inject_Z 0). rewrite <- Zle_Qle. lia.
Qed.

Lemma eps_pos : (0 < eps)%Q.
Proof. reflexivity. Qed.

(** A non-negative sum over itself plus [eps] stays below one. *)
Lemma ratio_below_one (t : Q) : (0 <= t)%Q -> (t / (t + eps) < 1)%Q.
Proof.
  intros Ht. apply Qlt_shift_div_r.
  - apply Qlt_le_trans with (0 + eps)%Q; [rewrite Qplus_0_l; apply eps_pos|].
    apply Qplus_le_l. exact Ht.
  - rewrite Qmult_1_l. rewrite <- (Qplus_0_r t) at 1.
    apply Qplus_lt_r. apply eps_pos.
Qed.

Lemma denominator_pos (x y : nat) : (0 < of_nat x + of_nat y + eps)%Q.
Proof.
  pose proof (of_nat_nonneg x). pose proof (of_nat_nonneg y).
  pose proof eps_pos. lra.
Qed.

Lemma count_cons (f t : string) (toks : list string) :
  count f (t :: toks) = ((if decide (t = f) then 1 else 0) + count f toks)%nat.
Proof. unfold count. rewrite filter_cons. by case_decide. Qed.

Lemma sum_indicator (t : string) (feats : list string) :
  NoDup feats -> t ∈ feats ->
  sum_list (map (fun f => if decide (t = f) then 1 else 0)%nat feats) = 1%nat.
Proof.
  induction 1 as [|f feats Hf Hnd IH]; intros Ht; [by apply elem_of_nil in Ht|].
  cbn [map sum_list sum_list_with]. case_decide as E.
  - subst f. f_equal. clear IH Ht Hnd.
    induction feats as [|g feats IH]; [done|]. cbn [map sum_list sum_list_with].
    apply not_elem_of_cons in Hf as [Hg Hf]. rewrite decide_False by done.
    by apply IH.
  - apply elem_of_cons in Ht as [Ht|Ht]; [done|]. by rewrite IH.
Qed.

(** The counts of the distinct features add up to the number of tokens. *)
Lemma sum_counts (feats toks : list string) :
  NoDup feats -> toks ⊆ feats ->
  sum_list (map (fun f => count f toks) feats) = length toks.
Proof.
  intros Hnd. induction toks as [|t toks IH]; intros Hsub.
  - clear. induction feats as [|f feats IH]; [done|].
    cbn [map sum_list sum_list_with]. by rewrite IH.
  - assert (sum_list (map (fun f => count f (t :: toks)) feats)
            = (sum_list (map (fun f => if decide (t = f) then 1 else 0) feats)
               + sum_list (map (fun f => count f toks) feats))%nat) as ->.
    { clear. induction feats as [|f feats IH]; [done|].
      cbn [map sum_list sum_list_with]. rewrite count_cons, IH. unfold id. lia. }
    rewrite IH by set_solver. rewrite sum_indicator by set_solver. done.
Qed.

Lemma plain_char (c : ascii) :
  Char.is_plain c = true ->
  Char.lower c = c /\ Char.is_token_char c = Char.nonspace c.
Proof.
  destruct c as [[] [] [] [] [] [] [] []]; vm_compute; (done || discriminate).
Qed.

(** On plain text the tokens of the count vectorizer are those of
    [split]. *)
Lemma cv_tokens_runs (doc : string) :
  cv_tokens doc = runs Char.is_token_char (lower doc).
Proof. apply ReFacts.findall_plus. Qed.

Lemma cv_tokens_plain (s : string) :
  all Char.is_plain s = true -> cv_tokens s = split s.
Proof.
  rewrite cv_tokens_runs. unfold split, runs. generalize "".
  induction s as [|c s IH]; intros acc Hs; [done|].
  cbn in Hs. apply andb_prop in Hs as [Hc Hs].
  apply plain_char in Hc as [Hl Ht]. cbn [lower runs_acc].
  rewrite Hl, Ht. destruct (Char.nonspace c); [by apply IH|].
  f_equal. by apply IH.
Qed.

Section WithSelf.
Variable self : artifacts.

Lemma getitems_spec (ws : list string) :
  match getitems self ws with
  | Ok idx =>
      Forall (fun w => in_vocab self w = true) ws /\
      idx = omap (fun w => vocab_dict self !! w) ws
  | Raise e =>
      exists w, e = KeyError w /\ w ∈ ws /\ in_vocab self w = false
  end.
Proof.
  induction ws as [|w ws IH]; cbn [getitems]; [done|].
  unfold getitem. destruct (vocab_dict self !! w) as [i|] eqn:Hw; cbn.
  - destruct (getitems self ws) as [idx|e]; cbn.
    + destruct IH as [Hall ->]. split.
      * constructor; [|done]. apply in_vocab_spec. by rewrite Hw.
      * by rewrite Hw.
    + destruct IH as (w' & -> & Hin & Hout). exists w'. set_solver.
  - exists w. split; [done|]. split; [set_solver|]. by apply in_vocab_false.
Qed.

Lemma getitems_key_error (ws : list string) :
  is_key_error (getitems self ws) = true <->
  exists w, w ∈ ws /\ in_vocab self w = false.
Proof.
  pose proof (getitems_spec ws) as H.
  destruct (getitems self ws) as [idx|e]; cbn.
  - destruct H as [Hall _]. split; [done|]. intros (w & Hin & Hout).
    rewrite Forall_forall in Hall. rewrite (Hall w Hin) in Hout. done.
  - destruct H as (w & -> & Hin & Hout). split; [eauto|done].
Qed.

Lemma getitems_ok (ws : list string) :
  Forall (fun w => in_vocab self w = true) ws ->
  getitems self ws = Ok (omap (fun w => vocab_dict self !! w) ws).
Proof.
  intros Hall. pose proof (getitems_spec ws) as H.
  destruct (getitems self ws) as [idx|e]; [by destruct H as [_ ->]|].
  destruct H as (w & _ & Hin & Hout).
  rewrite Forall_forall in Hall. rewrite (Hall w Hin) in Hout. done.
Qed.

Lemma getitems_cases (ws : list string) :
  (exists idx, getitems self ws = Ok idx) \/
  (exists w, getitems self ws = Raise (KeyError w)).
Proof.
  pose proof (getitems_spec ws) as H.
  destruct (getitems self ws) as [idx|e]; [eauto|].
  destruct H as (w & -> & _). eauto.
Qed.

Lemma exists_app (P : string -> Prop) (l1 l2 : list string) :
  (exists w, w ∈ l1 ++ l2 /\ P w) <->
  (exists w, w ∈ l1 /\ P w) \/ (exists w, w ∈ l2 /\ P w).
Proof.
  setoid_rewrite elem_of_app. split.
  - intros (w & [H|H] & HP); [left|right]; eauto.
  - intros [(w & H & HP)|(w & H & HP)]; eauto.
Qed.

Lemma indexer_key_error (s1 s2 : string) :
  is_key_error (_indexer self s1 s2) = true <->
  exists w, w ∈ split s1 ++ split s2 /\ in_vocab self w = false.
Proof.
  rewrite exists_app, <- !getitems_key_error.
  unfold _indexer. cbv zeta.
  destruct (getitems_cases (split s1)) as [[i1 ->]|[w1 ->]]; cbn.
  - destruct (getitems_cases (split s2)) as [[i2 ->]|[w2 ->]]; cbn; intuition.
  - intuition.
Qed.

Lemma features_elem (s1 s2 w : string) :
  w ∈ cv_features [s1; s2] <-> w ∈ cv_tokens s1 ++ cv_tokens s2.
Proof.
  unfold cv_features. rewrite merge_sort_Permutation, elem_of_remove_dups.
  cbn [map concat]. by rewrite app_nil_r.
Qed.

Lemma features_NoDup (docs : list string) : NoDup (cv_features docs).
Proof.
  unfold cv_features. rewrite merge_sort_Permutation. apply NoDup_remove_dups.
Qed.

Lemma wmd_key_error (s1 s2 : string) :
  is_key_error (_wmd_getter self s1 s2) = true <->
  exists w, w ∈ cv_tokens s1 ++ cv_tokens s2 /\ in_vocab self w = false.
Proof.
  setoid_rewrite <- features_elem. rewrite <- getitems_key_error.
  unfold _wmd_getter, wmd_flows, cv_fit, mbind, result_bind.
  destruct (cv_features [s1; s2]) as [|f fs]; [done|]. cbv beta iota zeta.
  destruct (getitems_cases (f :: fs)) as [[idx ->]|[w ->]]; done.
Qed.

(** On a pair of cleaned strings neither metric misses a vocabulary key,
    as long as the numbers are spelled out in plain text. *)
Lemma cleaned_pair_has_keys (text1 text2 : string) :
  plain_numbers self ->
  is_key_error (_indexer self (clean_text self text1) (clean_text self text2)) = false /\
  is_key_error (_wmd_getter self (clean_text self text1) (clean_text self text2)) = false.
Proof.
  intros Hn.
  assert (forall w, w ∈ split (clean_text self text1) ++ split (clean_text self text2) ->
                    in_vocab self w = true) as Hkeys.
  { intros w Hw. apply in_vocab_spec.
    rewrite !NormalizerFacts.split_clean_text in Hw.
    apply elem_of_app in Hw as [Hw|Hw]; by eapply kept_in_vocab. }
  split.
  - destruct (is_key_error (_indexer _ _ _)) eqn:E; [|done].
    apply indexer_key_error in E as (w & Hw & Hout).
    by rewrite (Hkeys w Hw) in Hout.
  - destruct (is_key_error (_wmd_getter _ _ _)) eqn:E; [|done].
    apply wmd_key_error in E as (w & Hw & Hout).
    rewrite !cv_tokens_plain in Hw by (by apply NormalizerFacts.clean_text_plain).
    by rewrite (Hkeys w Hw) in Hout.
Qed.

(** C4, amended: the index ratio raises [KeyError] exactly when some
    whitespace-separated token of either string is no vocabulary key; the
    word mover's distance raises it exactly when some token of the count
    vectorizer is none; on plain text (lowercase letters, digits,
    underscores, apostrophes and whitespace) the two kinds of token are the
    same; and on a pair of cleaned strings neither raises it, when the
    numbers are spelled out in plain text. *)
Theorem metric_key_errors (s1 s2 : string) :
  (is_key_error (_indexer self s1 s2) = true <->
   exists w, w ∈ split s1 ++ split s2 /\ in_vocab self w = false) /\
  (is_key_error (_wmd_getter self s1 s2) = true <->
   exists w, w ∈ cv_tokens s1 ++ cv_tokens s2 /\ in_vocab self w = false) /\
  (all Char.is_plain s1 = true -> all Char.is_plain s2 = true ->
   cv_tokens s1 ++ cv_tokens s2 = split s1 ++ split s2) /\
  (plain_numbers self ->
   (exists text1 text2, s1 = clean_text self text1 /\ s2 = clean_text self text2) ->
   is_key_error (_indexer self s1 s2) = false /\
   is_key_error (_wmd_getter self s1 s2) = false).
Proof.
  split; [apply indexer_key_error|]. split; [apply wmd_key_error|]. split.
  - intros H1 H2. by rewrite !cv_tokens_plain.
  - intros Hn (text1 & text2 & -> & ->). by apply cleaned_pair_has_keys.
Qed.

(** C5: on strings whose tokens are all vocabulary keys the index ratio is
    [(sum2 - sum1) / (sum1 + sum2 + eps)] for the index sums of the two
    strings, and exchanging the strings negates it. *)
Theorem indexer_ratio_antisymmetric (a b : string) :
  Forall (fun w => in_vocab self w = true) (split a) ->
  Forall (fun w => in_vocab self w = true) (split b) ->
  exists q q' : Q,
    _indexer self a b = Ok q /\ _indexer self b a = Ok q' /\
    (q == (of_nat (index_sum self b) - of_nat (index_sum self a))
          / (of_nat (index_sum self a) + of_nat (index_sum self b) + eps))%Q /\
    (q == - q')%Q.
Proof.
  intros Ha Hb. unfold _indexer. cbv zeta.
  rewrite (getitems_ok _ Ha), (getitems_ok _ Hb). cbn.
  fold (index_sum self a) (index_sum self b).
  set (x := index_sum self a). set (y := index_sum self b).
  eexists _, _. split; [reflexivity|]. split; [reflexivity|].
  rewrite !inject_Z_plus. unfold Z.sub. rewrite !inject_Z_plus, !inject_Z_opp.
  fold (of_nat x) (of_nat y).
  pose proof (denominator_pos x y) as Hxy.
  pose proof (denominator_pos y x) as Hyx.
  split; field; lra.
Qed.

Lemma transform_sum (s1 s2 doc : string) :
  cv_tokens doc ⊆ cv_tokens s1 ++ cv_tokens s2 ->
  (Qsum (cv_transform (cv_features [s1; s2]) doc)
   == of_nat (length (cv_tokens doc)))%Q.
Proof.
  intros Hsub. unfold cv_transform.
  rewrite <- (map_map (fun f => count f (cv_tokens doc)) of_nat).
  rewrite Qsum_of_nat, sum_counts; [reflexivity|apply features_NoDup|].
  intros w Hw. apply features_elem. by apply Hsub.
Qed.

Lemma normalize_sum (v : list Q) (n : nat) :
  (Qsum v == of_nat n)%Q ->
  (Qsum (normalize v) == of_nat n / (of_nat n + eps))%Q /\
  (Qsum (normalize v) < 1)%Q.
Proof.
  intros Hv. assert (Qsum (normalize v) == of_nat n / (of_nat n + eps))%Q as E.
  { unfold normalize. cbv zeta. rewrite Qsum_div. by rewrite Hv. }
  split; [exact E|]. rewrite E. apply ratio_below_one, of_nat_nonneg.
Qed.

(** C6, amended: when every token is a vocabulary key, each of the two
    normalized vectors of a pair with [n] tokens in the one string and [m]
    in the other sums to [n / (n + eps)] and [m / (m + eps)], both strictly
    below one. *)
Theorem normalized_flows_sum_below_one (s1 s2 : string) :
  cv_tokens s1 ++ cv_tokens s2 <> [] ->
  Forall (fun w => in_vocab self w = true) (cv_tokens s1 ++ cv_tokens s2) ->
  exists W_ v_1 v_2,
    wmd_flows self s1 s2 = Ok (W_, v_1, v_2) /\
    (Qsum v_1 == of_nat (length (cv_tokens s1))
                 / (of_nat (length (cv_tokens s1)) + eps))%Q /\
    (Qsum v_2 == of_nat (length (cv_tokens s2))
                 / (of_nat (length (cv_tokens s2)) + eps))%Q /\
    (Qsum v_1 < 1)%Q /\ (Qsum v_2 < 1)%Q.
Proof.
  intros Hne Hall. unfold wmd_flows, cv_fit, mbind, result_bind.
  destruct (cv_features [s1; s2]) as [|f fs] eqn:E.
  { destruct (cv_tokens s1 ++ cv_tokens s2) as [|w ws] eqn:Ew; [done|].
    assert (w ∈ cv_features [s1; s2]) as Hw
      by (apply features_elem; rewrite Ew; apply list_elem_of_here).
    rewrite E in Hw. by apply elem_of_nil in Hw. }
  rewrite <- E. rewrite getitems_ok.
  2:{ apply Forall_forall. intros w Hw%features_elem.
      rewrite Forall_forall in Hall. by apply Hall. }
  cbv beta iota zeta. eexists _, _, _. split; [reflexivity|].
  destruct (normalize_sum (cv_transform (cv_features [s1; s2]) s1)
              (length (cv_tokens s1))) as [H1 H1'].
  { apply transform_sum. intros w Hw. apply elem_of_app. by left. }
  destruct (normalize_sum (cv_transform (cv_features [s1; s2]) s2)
              (length (cv_tokens s2))) as [H2 H2'].
  { apply transform_sum. intros w Hw. apply elem_of_app. by right. }
  done.
Qed.

End WithSelf.

End MetricFacts.

(** ** The methods run on small instances *)

Module Runs.
Import Str Checker.

(** C1 on the rows of the specification, with "hello" and "world" in the
    vocabulary. *)
Lemma predict_row_degenerate_runs :
  predict_row (small ["hello"; "world"]) ("hello world", "") = ([], Ok "1") /\
  predict_row (small ["hello"; "world"]) ("", "hello world") = ([], Ok "2") /\
  predict_row (small ["hello"; "world"]) ("", "") = ([], Ok "1").
Proof.
  pose proof (DecisionFacts.predict_row_degenerate
                (small ["hello"; "world"]) ("hello world", "")) as H1.
  pose proof (DecisionFacts.predict_row_degenerate
                (small ["hello"; "world"]) ("", "hello world")) as H2.
  pose proof (DecisionFacts.predict_row_degenerate
                (small ["hello"; "world"]) ("", "")) as H3.
  cbv zeta in H1, H2, H3.
  destruct H1 as (H1 & _ & _). destruct H2 as (_ & H2 & _).
  destruct H3 as (_ & _ & H3).
  split; [apply H1; reflexivity|].
  split; [apply H2; [vm_compute; discriminate|reflexivity]|].
  apply H3; reflexivity.
Defined.

Lemma num_replace_runs :
  _num_replace (small []) "1 12" = " one   one 2" /\
  expand_digit_runs (small []) "1 12" = " one   twelve ".
Proof.
  apply (CascadeFacts.num_replace_rewrites_inside_later_run (small []));
    reflexivity.
Defined.

Lemma order_matters_runs :
  exists text,
    clean_text (small ["am"]) text <> clean_text_swapped (small ["am"]) text.
Proof.
  apply (proj2 (CascadeFacts.filler_removal_and_contractions_do_not_commute
                  (small ["am"]))).
  reflexivity.
Defined.

Lemma cleaner_idempotent_runs :
  clean_text (small ["hello"; "world"])
    (clean_text (small ["hello"; "world"]) "Hello, [laughter] World!")
  = clean_text (small ["hello"; "world"]) "Hello, [laughter] World!" /\
  clean_text (small ["it's"; "one"])
    (clean_text (small ["it's"; "one"]) "it's 1")
  = clean_text (small ["it's"; "one"]) "it's 1".
Proof.
  split.
  - apply (proj2 (NormalizerFacts.cleaner_idempotent_when_rewriting_is_silent
                    (small ["hello"; "world"]) "Hello, [laughter] World!"));
      vm_compute; reflexivity.
  - apply (proj1 (NormalizerFacts.cleaner_idempotent_when_rewriting_is_silent
                    (small ["it's"; "one"]) "it's 1")).
    vm_compute. reflexivity.
Defined.

(** C4 as stated fails for the word mover's distance in both directions:
    "a-b" is one token for [split] and two for the count vectorizer. *)
Lemma wmd_key_error_not_by_split_tokens :
  (Forall (fun w => in_vocab (small ["a-b"]) w = true)
          (split "a-b" ++ split "a-b") /\
   _wmd_getter (small ["a-b"]) "a-b" "a-b" = Raise (KeyError "a")) /\
  ((exists w, w ∈ split "a-b" ++ split "a" /\
              in_vocab (small ["a"; "b"]) w = false) /\
   _indexer (small ["a"; "b"]) "a-b" "a" = Raise (KeyError "a-b") /\
   is_key_error (_wmd_getter (small ["a"; "b"]) "a-b" "a") = false).
Proof.
  split; split.
  - vm_compute. repeat constructor.
  - vm_compute. reflexivity.
  - exists "a-b". split; [vm_compute; apply list_elem_of_here|reflexivity].
  - split; vm_compute; reflexivity.
Qed.

Lemma small_plain_numbers (lines : list string) : plain_numbers (small lines).
Proof.
  intros num. cbn.
  repeat (destruct num as [|[[] [] [] [] [] [] [] []] num]; try reflexivity).
Qed.

Lemma metric_key_errors_runs :
  cv_tokens "it's a_b 42" ++ cv_tokens "ok" = split "it's a_b 42" ++ split "ok" /\
  is_key_error (_indexer (small ["hello"; "world"; "one"])
                  (clean_text (small ["hello"; "world"; "one"]) "Hello, World 1!")
                  (clean_text (small ["hello"; "world"; "one"]) "hello")) = false /\
  is_key_error (_wmd_getter (small ["hello"; "world"; "one"])
                  (clean_text (small ["hello"; "world"; "one"]) "Hello, World 1!")
                  (clean_text (small ["hello"; "world"; "one"]) "hello")) = false.
Proof.
  split.
  - apply (MetricFacts.metric_key_errors (small []) "it's a_b 42" "ok");
      reflexivity.
  - apply (MetricFacts.metric_key_errors (small ["hello"; "world"; "one"])
             (clean_text (small ["hello"; "world"; "one"]) "Hello, World 1!")
             (clean_text (small ["hello"; "world"; "one"]) "hello")).
    + apply small_plain_numbers.
    + eexists _, _. split; reflexivity.
Defined.

Lemma indexer_ratio_runs :
  exists q q' : Q,
    _indexer (small ["i"; "guess"; "hello"]) "i guess" "hello" = Ok q /\
    _indexer (small ["i"; "guess"; "hello"]) "hello" "i guess" = Ok q' /\
    (q == (of_nat (index_sum (small ["i"; "guess"; "hello"]) "hello")
           - of_nat (index_sum (small ["i"; "guess"; "hello"]) "i guess"))
          / (of_nat (index_sum (small ["i"; "guess"; "hello"]) "i guess")
             + of_nat (index_sum (small ["i"; "guess"; "hello"]) "hello") + eps))%Q /\
    (q == - q')%Q.
Proof.
  apply (MetricFacts.indexer_ratio_antisymmetric
           (small ["i"; "guess"; "hello"]) "i guess" "hello");
    vm_compute; repeat constructor.
Defined.

(** C6 as stated fails: the one-token vectors of the pair ("hello",
    "hello") sum to 10000/10001. *)
Lemma normalized_flows_do_not_sum_to_one :
  exists W_ v_1 v_2,
    wmd_flows (small ["hello"]) "hello" "hello" = Ok (W_, v_1, v_2) /\
    ~ (Qsum v_1 == 1)%Q /\ ~ (Qsum v_2 == 1)%Q.
Proof.
  eexists _, _, _. split; [vm_compute; reflexivity|].
  split; vm_compute; discriminate.
Qed.

Lemma normalized_flows_runs :
  exists W_ v_1 v_2,
    wmd_flows (small ["hello"; "world"]) "hello world" "hello" = Ok (W_, v_1, v_2) /\
    (Qsum v_1 == of_nat (length (cv_tokens "hello world"))
                 / (of_nat (length (cv_tokens "hello world")) + eps))%Q /\
    (Qsum v_2 == of_nat (length (cv_tokens "hello"))
                 / (of_nat (length (cv_tokens "hello")) + eps))%Q /\
    (Qsum v_1 < 1)%Q /\ (Qsum v_2 < 1)%Q.
Proof.
  apply (MetricFacts.normalized_flows_sum_below_one
           (small ["hello"; "world"]) "hello world" "hello").
  - vm_compute. discriminate.
  - vm_compute. repeat constructor.
Defined.

End Runs.

(** * Further properties of the methods *)

(** ** The vocabulary dictionary and the vocabulary filter *)

Module VocabMore.
Import Str StrFacts Checker VocabFacts.

Lemma last_index_None (w : string) (ws : list string) :
  last_index w ws = None <-> forall j, ws !! j <> Some w.
Proof.
  induction ws as [|x ws IH]; cbn [last_index]; [done|].
  destruct (last_index w ws) as [k|].
  - split; [done|]. intros H.
    assert (Some k = None) as Hk; [|done].
    apply IH. intros j Hj. by apply (H (S j)).
  - destruct (decide (x = w)) as [->|Hx].
    + split; [done|]. intros H. by specialize (H 0%nat).
    + split; [|done]. intros _ [|j] Hj.
      * cbn in Hj. by simplify_eq.
      * by apply (proj1 IH eq_refl j).
Qed.

Lemma last_index_spec (w : string) (ws : list string) (i : nat) :
  last_index w ws = Some i <->
  ws !! i = Some w /\ forall j, (i < j)%nat -> ws !! j <> Some w.
Proof.
  revert i. induction ws as [|x ws IH]; intros i; cbn [last_index].
  - split; [done|]. by intros [? _].
  - destruct i as [|i].
    + pose proof (last_index_None w ws) as HN.
      destruct (last_index w ws) as [k|].
      * split; [done|]. intros [_ Hlater]. exfalso.
        assert (Some k = None -> False) as Hk by done.
        apply Hk, HN. intros j. apply (Hlater (S j)). lia.
      * destruct (decide (x = w)) as [->|Hx].
        -- split; [|done]. intros _. split; [done|].
           intros [|j] Hj; [lia|]. by apply (proj1 HN eq_refl j).
        -- split; [done|]. intros [Hi _]. cbn in Hi. by simplify_eq.
    + specialize (IH i). destruct (last_index w ws) as [k|].
      * split.
        -- intros [= ->]. destruct (proj1 IH eq_refl) as [Hk Hlater].
           split; [done|]. intros [|j] Hj; [lia|]. apply Hlater. lia.
        -- intros [Hi Hlater]. assert (Some k = Some i) as [= ->]; [|done].
           apply IH. split; [done|].
           intros j Hj. apply (Hlater (S j)). lia.
      * split.
        -- by destruct (decide (x = w)).
        -- intros [Hi Hlater]. exfalso.
           assert (None = Some i -> False) as Hk by done.
           apply Hk, IH. split; [done|].
           intros j Hj. apply (Hlater (S j)). lia.
Qed.

Lemma foldl_insert_lookup (ws : list string) (k : nat)
    (d : gmap string nat) (w : string) :
  foldl (fun d iw => <[iw.2 := iw.1]> d) d
        (imap (fun i x => ((k + i)%nat, x)) ws) !! w
  = match last_index w ws with
    | Some j => Some (k + j)%nat
    | None => d !! w
    end.
Proof.
  revert k d. induction ws as [|x ws IH]; intros k d; [done|].
  cbn [imap foldl last_index fst snd].
  rewrite (imap_ext _ (fun i y => ((S k + i)%nat, y))).
  2:{ intros i y _. cbn. f_equal. lia. }
  rewrite IH. destruct (last_index w ws) as [j|].
  - f_equal. lia.
  - rewrite lookup_insert. by destruct (decide (x = w)).
Qed.

Section WithSelf.
Variable self : artifacts.

(** The dictionary maps a word to the position of its last line in the
    vocabulary file, and only the stripped lines are keys. *)
Theorem vocab_dict_last_line (w : string) (i : nat) :
  vocab_dict self !! w = Some i <->
  vocab_list self !! i = Some w /\
  forall j, (i < j)%nat -> vocab_list self !! j <> Some w.
Proof.
  unfold vocab_dict.
  rewrite (foldl_insert_lookup (vocab_list self) 0 ∅ w).
  rewrite <- last_index_spec. rewrite lookup_empty.
  by destruct (last_index w (vocab_list self)).
Qed.

(** The vocabulary filter keeps the vocabulary words of its input, in
    their order, and nothing else. *)
Theorem oov_clean_tokens (str : string) :
  split (_oov_clean self str)
  = filter (fun w => in_vocab self w = true) (split str).
Proof.
  rewrite split_oov_clean. unfold kept.
  induction (split str) as [|w ws IH]; [done|].
  rewrite !filter_cons, IH.
  destruct (decide (Is_true (in_vocab self w))) as [H|H],
           (decide (in_vocab self w = true)) as [H'|H']; try done.
  - exfalso. apply H'. by apply Is_true_true.
  - exfalso. apply H. by apply Is_true_true.
Qed.

(** The strings the vocabulary filter returns unchanged are the
    single-space joins of vocabulary words, and its results are among
    them. *)
Theorem oov_clean_fixed_points (str : string) :
  (_oov_clean self str = str <->
   str = join " " (split str) /\
   Forall (fun w => in_vocab self w = true) (split str)) /\
  _oov_clean self (_oov_clean self str) = _oov_clean self str.
Proof.
  split; [|apply oov_clean_idempotent]. split.
  - intros E. pose proof (split_oov_clean self str) as Hs. rewrite E in Hs.
    split.
    + rewrite Hs. symmetry. exact E.
    + rewrite Hs. apply Forall_forall. intros w Hw.
      apply in_vocab_spec. by eapply kept_in_vocab.
  - intros [Hcanon Hall]. rewrite oov_clean_kept. rewrite Hcanon at 2.
    f_equal. unfold kept. clear Hcanon.
    induction Hall as [|w ws Hw Hall IH]; [done|].
    rewrite filter_cons, decide_True, IH; [done|]. by apply Is_true_true.
Qed.

End WithSelf.

End VocabMore.

(** ** The index ratio *)

Module IndexerMore.
Import Str Checker VocabFacts MetricFacts.

Section WithSelf.
Variable self : artifacts.

Lemma getitems_app (l1 l2 : list string) :
  getitems self (l1 ++ l2)
  = (i1 ← getitems self l1; i2 ← getitems self l2; Ok (i1 ++ i2)).
Proof.
  induction l1 as [|w l1 IH]; cbn [getitems app].
  - cbn. by destruct (getitems self l2).
  - rewrite IH. destruct (getitem self w); [|done]. cbn.
    destruct (getitems self l1); [|done]. cbn.
    by destruct (getitems self l2).
Qed.

(** The lookups stop at the first word that is no key, and name it. *)
Lemma getitems_first_missing (ws : list string) (e : exn) :
  getitems self ws = Raise e <->
  exists l1 w l2,
    e = KeyError w /\ ws = l1 ++ w :: l2 /\
    Forall (fun x => in_vocab self x = true) l1 /\ in_vocab self w = false.
Proof.
  revert e. induction ws as [|x ws IH]; intros e; cbn [getitems].
  - split; [done|]. intros (l1 & w & l2 & _ & E & _). by destruct l1.
  - unfold getitem. destruct (vocab_dict self !! x) as [i|] eqn:Hx; cbn.
    + assert (in_vocab self x = true) as Hin
        by (apply in_vocab_spec; by rewrite Hx).
      destruct (getitems self ws) as [idx|e'] eqn:Hws; cbn.
      * split; [done|]. intros (l1 & w & l2 & -> & E & Hl1 & Hw).
        destruct l1 as [|y l1]; simplify_eq/=; [congruence|].
        assert (Ok idx = Raise (KeyError w)) as H; [|done].
        apply IH. exists l1, w, l2. by inversion Hl1.
      * split.
        -- intros [= <-]. destruct (proj1 (IH e') eq_refl)
             as (l1 & w & l2 & -> & -> & Hl1 & Hw).
           exists (x :: l1), w, l2. split; [done|]. split; [done|].
           split; [by constructor|done].
        -- intros (l1 & w & l2 & -> & E & Hl1 & Hw).
           destruct l1 as [|y l1]; simplify_eq/=; [congruence|].
           apply IH. exists l1, w, l2. by inversion Hl1.
    + assert (in_vocab self x = false) as Hout by (by apply in_vocab_false).
      split.
      * intros [= <-]. exists [], x, ws. split; [done|]. split; [done|].
        split; [constructor|done].
      * intros (l1 & w & l2 & -> & E & Hl1 & Hw).
        destruct l1 as [|y l1]; simplify_eq/=; [done|].
        inversion Hl1; congruence.
Qed.

Lemma indexer_raise (s1 s2 : string) (e : exn) :
  _indexer self s1 s2 = Raise e <->
  getitems self (split s1 ++ split s2) = Raise e.
Proof.
  rewrite getitems_app. unfold _indexer. cbv zeta.
  destruct (getitems self (split s1)) as [i1|e1]; cbn;
    [|split; by intros [= ->]].
  destruct (getitems self (split s2)) as [i2|e2]; cbn;
    [|split; by intros [= ->]].
  split; discriminate.
Qed.

(** The index ratio raises only [KeyError], and the key is the first
    whitespace-separated token, reading the first string and then the
    second, that the vocabulary lacks. *)
Theorem indexer_names_first_missing_token (s1 s2 : string) (e : exn) :
  _indexer self s1 s2 = Raise e <->
  exists l1 w l2,
    e = KeyError w /\ split s1 ++ split s2 = l1 ++ w :: l2 /\
    Forall (fun x => in_vocab self x = true) l1 /\ in_vocab self w = false.
Proof. rewrite indexer_raise. apply getitems_first_missing. Qed.



End WithSelf.

End IndexerMore.

(** ** The flow vectors of the word mover's distance *)

Module WmdMore.
Import Str Checker VocabFacts MetricFacts.

Lemma Qsum_nonneg (v : list Q) :
  Forall (fun x => (0 <= x)%Q) v -> (0 <= Qsum v)%Q.
Proof.
  induction 1 as [|x v Hx Hv IH]; cbn [Qsum]; [apply Qle_refl|]. lra.
Qed.

Lemma Qsum_bounds_entry (v : list Q) :
  Forall (fun x => (0 <= x)%Q) v -> Forall (fun x => (x <= Qsum v)%Q) v.
Proof.
  induction 1 as [|x v Hx Hv IH]; cbn [Qsum]; constructor.
  - pose proof (Qsum_nonneg v Hv). lra.
  - eapply Forall_impl; [exact IH|]. intros y Hy. cbn in Hy. lra.
Qed.

(** Dividing non-negative counts by their sum plus [eps] gives masses in
    the interval from 0 to 1, 1 excluded. *)
Lemma normalize_range (v : list Q) :
  Forall (fun x => (0 <= x)%Q) v ->
  Forall (fun x => (0 <= x)%Q /\ (x < 1)%Q) (normalize v).
Proof.
  intros Hv. unfold normalize. cbv zeta. apply Forall_map.
  pose proof (Qsum_nonneg v Hv) as Hs. pose proof eps_pos as He.
  pose proof (Qsum_bounds_entry v Hv) as Hle.
  rewrite Forall_forall in Hv, Hle. apply Forall_forall. intros x Hx.
  specialize (Hv x Hx). specialize (Hle x Hx). cbn in Hle. split.
  - apply Qle_shift_div_l; lra.
  - apply Qlt_shift_div_r; lra.
Qed.

Lemma transform_nonneg (feats : list string) (doc : string) :
  Forall (fun x => (0 <= x)%Q) (cv_transform feats doc).
Proof.
  unfold cv_transform. apply Forall_map, Forall_forall. intros f _.
  apply of_nat_nonneg.
Qed.

Lemma features_sorted (docs : list string) :
  StronglySorted String.le (cv_features docs).
Proof. unfold cv_features. apply StronglySorted_merge_sort; apply _. Qed.

(** The feature names depend on the set of tokens only, not on the order
    of the two documents. *)
Lemma features_swap (s1 s2 : string) :
  cv_features [s1; s2] = cv_features [s2; s1].
Proof.
  apply (StronglySorted_unique String.le); [apply features_sorted..|].
  apply NoDup_Permutation; [apply features_NoDup..|].
  intros w. rewrite !features_elem, !elem_of_app. tauto.
Qed.

Section WithSelf.
Variable self : artifacts.

Lemma getitems_length (ws : list string) (idx : list nat) :
  getitems self ws = Ok idx -> length idx = length ws.
Proof.
  revert idx. induction ws as [|w ws IH]; intros idx; cbn [getitems].
  - by intros [= <-].
  - destruct (getitem self w); [|done]. cbn.
    destruct (getitems self ws) as [idx'|]; [|done]. cbn.
    intros [= <-]. cbn. by rewrite (IH idx').
Qed.

(** What [_wmd_getter] hands to [emd]: two mass vectors and embedding
    rows, one entry each per distinct token of the two strings, the
    tokens in sorted order and the masses in the interval from 0 to 1,
    1 excluded. *)
Theorem wmd_flows_shapes (s1 s2 : string) (W_ : list (list Q))
    (v_1 v_2 : list Q) :
  wmd_flows self s1 s2 = Ok (W_, v_1, v_2) ->
  cv_features [s1; s2] <> [] /\
  NoDup (cv_features [s1; s2]) /\
  StronglySorted String.le (cv_features [s1; s2]) /\
  length W_ = length (cv_features [s1; s2]) /\
  length v_1 = length (cv_features [s1; s2]) /\
  length v_2 = length (cv_features [s1; s2]) /\
  Forall (fun x => (0 <= x)%Q /\ (x < 1)%Q) v_1 /\
  Forall (fun x => (0 <= x)%Q /\ (x < 1)%Q) v_2.
Proof.
  unfold wmd_flows, cv_fit, mbind, result_bind.
  destruct (cv_features [s1; s2]) as [|f fs] eqn:E; [done|]. rewrite <- E.
  destruct (getitems self (cv_features [s1; s2])) as [idx|] eqn:Hidx; [|done].
  cbv beta iota zeta. intros [= <- <- <-].
  split; [by rewrite E|]. split; [apply features_NoDup|].
  split; [apply features_sorted|].
  split; [by rewrite length_map, (getitems_length _ _ Hidx)|].
  unfold normalize, cv_transform. cbv zeta. rewrite !length_map.
  split; [done|]. split; [done|].
  split; apply normalize_range, transform_nonneg.
Qed.

(** Exchanging the two strings exchanges the two mass vectors and leaves
    the embedding rows, hence the cost matrix, as they are; an exception
    is the same in both orders. *)
Theorem wmd_flows_swap (s1 s2 : string) :
  match wmd_flows self s1 s2 with
  | Ok (W_, v_1, v_2) => wmd_flows self s2 s1 = Ok (W_, v_2, v_1)
  | Raise e => wmd_flows self s2 s1 = Raise e
  end.
Proof.
  unfold wmd_flows, cv_fit, mbind, result_bind.
  rewrite (features_swap s2 s1).
  destruct (cv_features [s1; s2]) as [|f fs]; [done|].
  by destruct (getitems self (f :: fs)).
Qed.

End WithSelf.

End WmdMore.

(** ** The cleaning cascade on particular kinds of text *)

Module CleanerMore.
Import Str StrFacts Checker VocabFacts NormalizerFacts.

Lemma lower_noncontent_char (c : ascii) :
  negb (is_content c) = true -> Char.lower c = c.
Proof.
  destruct c as [[] [] [] [] [] [] [] []]; vm_compute; (done || discriminate).
Qed.

Lemma lower_noncontent (s : string) :
  all (fun c => negb (is_content c)) s = true -> lower s = s.
Proof.
  induction s as [|c s IH]; [done|]. cbn. intros [Hc Hs]%andb_prop.
  by rewrite lower_noncontent_char, IH.
Qed.

Lemma kept_noncontent_char (c : ascii) :
  Char.is_kept c = true -> negb (is_content c) = true ->
  negb (Char.nonspace c) = true.
Proof.
  destruct c as [[] [] [] [] [] [] [] []]; vm_compute; (done || discriminate).
Qed.

Lemma all_both (p q r : ascii -> bool) (s : string) :
  (forall c, p c = true -> q c = true -> r c = true) ->
  all p s = true -> all q s = true -> all r s = true.
Proof.
  intros H. induction s as [|c s IH]; [done|]. cbn.
  intros [Hp Hps]%andb_prop [Hq Hqs]%andb_prop. by rewrite (H c), IH.
Qed.

Lemma runs_acc_none (p : ascii -> bool) (s acc : string) :
  all (fun c => negb (p c)) s = true -> runs_acc p acc s = flush acc.
Proof.
  revert acc. induction s as [|c s IH]; intros acc; [done|]. cbn.
  intros [Hc Hs]%andb_prop.
  destruct (p c); [done|]. rewrite (IH "" Hs). cbn. apply List.app_nil_r.
Qed.

Lemma split_blank (s : string) :
  all (fun c => negb (Char.nonspace c)) s = true -> split s = [].
Proof. intros Hs. unfold split, runs. by rewrite runs_acc_none. Qed.

Ltac skip_subs q s H :=
  repeat (rewrite (ReFacts.sub_needs q _ _ s);
          [|vm_compute; reflexivity|exact H]).

Section WithSelf.
Variable self : artifacts.

(** A text without any letter, digit or apostrophe is cleaned to the
    empty string, whatever the vocabulary. *)
Theorem clean_text_without_content (text : string) :
  all (fun c => negb (is_content c)) text = true -> clean_text self text = "".
Proof.
  intros H. unfold clean_text, rewrite_text, strip_markup. cbv zeta.
  rewrite (lower_noncontent text H).
  rewrite (ReFacts.sub_needs is_content _ _ text);
    [|vm_compute; reflexivity|exact H].
  set (t2 := Re.sub Rules.dash_or_colon [Re.Txt " "] text).
  assert (all (fun c => negb (is_content c)) t2 = true) as H2
    by (by apply ReFacts.sub_inv).
  rewrite (ReFacts.sub_needs is_content _ _ t2);
    [|vm_compute; reflexivity|exact H2].
  set (t4 := Re.sub Rules.not_kept [] t2).
  assert (all (fun c => negb (is_content c)) t4 = true) as H4
    by (by apply ReFacts.sub_inv).
  assert (all (fun c => negb (Char.nonspace c)) t4 = true) as B4.
  { apply (all_both Char.is_kept (fun c => negb (is_content c)));
      [apply kept_noncontent_char| |exact H4].
    eapply ReFacts.all_impl;
      [|apply (ReFacts.sub_class_removed Char.not_kept)].
    intros c. unfold Char.not_kept. by rewrite negb_involutive. }
  assert (expand_contractions t4 = t4) as ->.
  { unfold expand_contractions. cbv zeta. by skip_subs is_content t4 H4. }
  assert (ordinals t4 = t4) as ->.
  { unfold ordinals. cbv zeta. by skip_subs is_content t4 H4. }
  assert (remove_fillers t4 = t4) as ->.
  { unfold remove_fillers. by skip_subs is_content t4 H4. }
  assert (_num_replace self t4 = t4) as ->.
  { unfold _num_replace. cbv zeta.
    rewrite (ReFacts.findall_needs is_content);
      [done|vm_compute; reflexivity|exact H4]. }
  unfold _oov_clean. cbv zeta. by rewrite split_blank.
Qed.

(** A string without digits passes through the number expander
    unchanged. *)
Theorem num_replace_without_digits (str : string) :
  all (fun c => negb (Char.is_digit c)) str = true -> _num_replace self str = str.
Proof.
  intros H. unfold _num_replace. cbv zeta.
  rewrite (ReFacts.findall_needs Char.is_digit);
    [done|vm_compute; reflexivity|exact H].
Qed.

(** Before the numbers are spelled out the text holds only lowercase
    letters, digits, spaces and apostrophes; and when the numbers are
    spelled in plain text, so is the cleaned string. *)
Theorem clean_text_alphabet (text : string) :
  all Char.is_kept
    (remove_fillers (ordinals (expand_contractions (strip_markup text)))) = true /\
  (plain_numbers self -> all Char.is_plain (clean_text self text) = true).
Proof.
  split.
  - apply remove_fillers_kept, ordinals_kept, expand_contractions_kept,
      strip_markup_kept.
  - apply clean_text_plain.
Qed.

End WithSelf.

End CleanerMore.

(** ** The decision wrapper on whole files *)

Module DecisionMore.
Import Str StrFacts Checker VocabFacts NormalizerFacts MetricFacts.

Section WithSelf.
Variable self : artifacts.

Lemma clean_text_tokens (text : string) :
  clean_text self text <> "" -> kept self (rewrite_text self text) <> [].
Proof. intros Hne E. apply Hne. by rewrite clean_text_kept, E. Qed.

(** On two cleaned strings that are not empty the metric engine returns
    its three values. *)
Lemma generate_cleaned_pair (text1 text2 : string) :
  plain_numbers self ->
  clean_text self text1 <> "" ->
  exists values,
    _generate self (clean_text self text1) (clean_text self text2) = Ok values.
Proof.
  intros Hn Hne.
  set (s1 := clean_text self text1). set (s2 := clean_text self text2).
  assert (cv_tokens s1 = kept self (rewrite_text self text1)) as E1.
  { unfold s1. rewrite cv_tokens_plain by (by apply clean_text_plain).
    apply split_clean_text. }
  assert (cv_tokens s2 = kept self (rewrite_text self text2)) as E2.
  { unfold s2. rewrite cv_tokens_plain by (by apply clean_text_plain).
    apply split_clean_text. }
  assert (Forall (fun w => in_vocab self w = true) (cv_features [s1; s2])) as Hf.
  { apply Forall_forall. intros w Hw%features_elem. rewrite E1, E2 in Hw.
    apply in_vocab_spec. apply elem_of_app in Hw as [Hw|Hw];
      by eapply kept_in_vocab. }
  assert (cv_features [s1; s2] <> []) as Hfeat.
  { intros E. pose proof (clean_text_tokens text1 Hne) as Hk.
    destruct (kept self (rewrite_text self text1)) as [|w ws] eqn:Ek; [done|].
    assert (w ∈ cv_features [s1; s2]) as Hw.
    { apply features_elem. rewrite E1. apply elem_of_app. left.
      apply list_elem_of_here. }
    rewrite E in Hw. by apply elem_of_nil in Hw. }
  unfold _generate, _wmd_getter, wmd_flows, cv_fit, _indexer, mbind, result_bind.
  cbv zeta. destruct (cv_features [s1; s2]) as [|f fs] eqn:E; [done|].
  rewrite (getitems_ok self _ Hf).
  assert (Forall (fun w => in_vocab self w = true) (split s1)) as H1.
  { unfold s1. rewrite split_clean_text. apply Forall_forall. intros w Hw.
    apply in_vocab_spec. by eapply kept_in_vocab. }
  assert (Forall (fun w => in_vocab self w = true) (split s2)) as H2.
  { unfold s2. rewrite split_clean_text. apply Forall_forall. intros w Hw.
    apply in_vocab_spec. by eapply kept_in_vocab. }
  rewrite (getitems_ok self _ H1), (getitems_ok self _ H2). by eexists.
Qed.

Lemma predict_row_classifies_aux (row_ : string * string) :
  plain_numbers self ->
  clean_text self row_.1 <> "" ->
  clean_text self row_.2 <> "" ->
  exists cs p, predict_row self row_ = (cs, Ok p).
Proof.
  intros Hn H1 H2.
  destruct (generate_cleaned_pair row_.1 row_.2 Hn H1) as [values Hv].
  unfold predict_row, _cleaner. cbn [map].
  destruct (clean_text self row_.2) eqn:E2; [done|].
  destruct (clean_text self row_.1) eqn:E1; [done|].
  cbn [is_empty]. rewrite Hv. by eexists _, _.
Qed.

(** A row whose two strings both clean to something is classified by the
    model on the values of the metric engine, each called once; no
    exception comes from the vocabulary lookups or from the vectorizer,
    as long as the numbers are spelled in plain text. *)
Theorem predict_row_classifies (row_ : string * string) :
  plain_numbers self ->
  clean_text self row_.1 <> "" ->
  clean_text self row_.2 <> "" ->
  exists values,
    _generate self (clean_text self row_.1) (clean_text self row_.2) = Ok values /\
    predict_row self row_
    = ([CallGenerate (clean_text self row_.1) (clean_text self row_.2);
        CallModel values],
       Ok (model_predict self values)).
Proof.
  intros Hn H1 H2.
  destruct (generate_cleaned_pair row_.1 row_.2 Hn H1) as [values Hv].
  exists values. split; [done|].
  unfold predict_row, _cleaner. cbn [map].
  destruct (clean_text self row_.2) eqn:E2; [done|].
  destruct (clean_text self row_.1) eqn:E1; [done|].
  cbn [is_empty]. by rewrite Hv.
Qed.

Lemma predict_row_total (row_ : string * string) :
  plain_numbers self ->
  exists cs p, predict_row self row_ = (cs, Ok p).
Proof.
  intros Hn.
  destruct (decide (clean_text self row_.2 = "")) as [E2|N2].
  { unfold predict_row, _cleaner. cbn [map]. rewrite E2. by eexists _, _. }
  destruct (decide (clean_text self row_.1 = "")) as [E1|N1].
  { unfold predict_row, _cleaner. cbn [map]. rewrite E1.
    destruct (clean_text self row_.2); [done|]. by eexists _, _. }
  destruct (predict_row_classifies_aux row_ Hn N1 N2) as (cs & p & ->).
  by eexists _, _.
Qed.

(** [predict] works row by row: when it returns, there is one label per
    row, in the order of the rows, each the one [predict_row] gives for its
    row alone, and the calls are those of the rows in turn; when it raises,
    the exception is that of the first row that raises, and the rows after
    it are not processed. *)
Theorem predict_rows_by_row (rows : list (string * string)) :
  match predict_rows self rows with
  | (cs, Ok labels) =>
      Forall2 (fun row_ p => (predict_row self row_).2 = Ok p) rows labels /\
      cs = concat (map (fun row_ => (predict_row self row_).1) rows) /\
      predict self rows = (cs, Ok (join "," labels))
  | (cs, Raise e) =>
      exists rows1 row_ rows2,
        rows = rows1 ++ row_ :: rows2 /\
        Forall (fun r => exists p, (predict_row self r).2 = Ok p) rows1 /\
        (predict_row self row_).2 = Raise e /\
        cs = concat (map (fun r => (predict_row self r).1) (rows1 ++ [row_])) /\
        predict self rows = (cs, Raise e)
  end.
Proof.
  unfold predict.
  induction rows as [|row_ rows IH]; cbn [predict_rows]; [by repeat split|].
  cbn [map concat]. unfold mbind, result_bind in *.
  destruct (predict_row self row_) as [cs [p|e]] eqn:Hrow; cbv beta iota zeta.
  - destruct (predict_rows self rows) as [cs' [labels|e]]; cbv beta iota zeta;
      cbv beta iota zeta in IH.
    + destruct IH as (Hall & -> & _). cbn [fst snd]. split; [|done].
      constructor; [by rewrite Hrow|done].
    + destruct IH as (rows1 & r & rows2 & -> & Hall & Hr & -> & _).
      exists (row_ :: rows1), r, rows2. split; [done|].
      split; [constructor; [rewrite Hrow; by eexists|done]|].
      split; [done|]. cbn [app map concat fst snd]. by rewrite Hrow.
  - exists [], row_, rows. split; [done|]. split; [constructor|].
    split; [by rewrite Hrow|]. cbn [app map concat fst snd]. rewrite Hrow.
    cbn [fst snd]. by rewrite List.app_nil_r.
Qed.

(** With the numbers spelled in plain text [predict] raises no exception
    of its own on any file: it returns one label per row. *)
Theorem predict_returns_labels (rows : list (string * string)) :
  plain_numbers self ->
  exists cs labels,
    predict self rows = (cs, Ok (join "," labels)) /\
    length labels = length rows.
Proof.
  intros Hn. unfold predict.
  assert (exists cs labels, predict_rows self rows = (cs, Ok labels) /\
                            length labels = length rows) as (cs & labels & -> & Hlen).
  { induction rows as [|row_ rows (cs' & labels & IH & Hlen)];
      cbn [predict_rows]; [by eexists _, _|].
    destruct (predict_row_total row_ Hn) as (cs & p & ->). rewrite IH. cbn.
    eexists _, _. split; [done|]. cbn. by rewrite Hlen. }
  by eexists _, _.
Qed.

End WithSelf.

End DecisionMore.

(** ** The filler pattern *)

Module FillerMore.
Import Str Re Checker.

Lemma match_at_alts (rs : list regex) (prev : option ascii) (s : string) :
  rs <> [] -> match_at (alts rs) prev s = first_match rs prev s.
Proof.
  induction rs as [|r rs IH]; [done|]. intros _.
  destruct rs as [|r' rs].
  - cbn [alts first_match]. by destruct (match_at r prev s).
  - change (alts (r :: r' :: rs)) with (Alt r (alts (r' :: rs))).
    change (first_match (r :: r' :: rs) prev s)
      with (match match_at r prev s with
            | Some x => Some x
            | None => first_match (r' :: rs) prev s
            end).
    rewrite <- IH by done. unfold match_at. cbn [run].
    by destruct (run r prev s 0 [] _).
Qed.

Lemma first_match_None (rs : list regex) (prev : option ascii) (s : string)
    (i : nat) (r : regex) :
  first_match rs prev s = None -> rs !! i = Some r -> match_at r prev s = None.
Proof.
  revert i. induction rs as [|r' rs IH]; intros i; [done|]. cbn [first_match].
  destruct (match_at r' prev s) eqn:E; [done|]. intros H.
  destruct i as [|i]; cbn; [by intros [= <-]|]. by apply IH.
Qed.

(** An alternative that matches only where an earlier one does can be
    dropped. *)
Lemma first_match_drop (l1 l2 : list regex) (d : regex)
    (prev : option ascii) (s : string) :
  (first_match l1 prev s = None -> match_at d prev s = None) ->
  first_match (l1 ++ d :: l2) prev s = first_match (l1 ++ l2) prev s.
Proof.
  induction l1 as [|r l1 IH]; cbn [first_match app].
  - intros H. by rewrite H.
  - destruct (match_at r prev s); [done|]. exact IH.
Qed.

Lemma scan_ext {A : Type} (r1 r2 : regex) (on_match : string -> groups -> A)
    (on_char : ascii -> A) :
  (forall prev s, match_at r1 prev s = match_at r2 prev s) ->
  forall s prev skip,
  scan r1 on_match on_char prev s skip = scan r2 on_match on_char prev s skip.
Proof.
  intros H. induction s as [|c s IH]; intros prev skip.
  - destruct skip; cbn [scan]; [|done]. by rewrite H.
  - destruct skip; cbn [scan]; [|apply IH]. rewrite H.
    destruct (match_at r2 prev (String c s)) as [[[|len] g]|];
      by rewrite ?IH.
Qed.

Ltac next_char :=
  match goal with
  | |- context [match ?s with EmptyString => _ | String _ _ => _ end] =>
      is_var s; destruct s as [|? s]; [done|]
  end;
  match goal with
  | |- context [Ascii.eqb ?c ?a] =>
      destruct (Ascii.eqb_spec c a) as [->|]; [|done]
  end.

(** Where ["that's good"] matches, ["that"] matches: the apostrophe after
    it is a word boundary. *)
Lemma that_shadows (prev : option ascii) (s : string) :
  match_at (seqs [WordB; Lit "that"; WordB]) prev s = None ->
  match_at (seqs [WordB; Lit "that's good"; WordB]) prev s = None.
Proof.
  unfold match_at. cbn [seqs Lit run].
  destruct (at_boundary prev s); [|done].
  do 5 next_char. done.
Qed.

Lemma so_shadows (prev : option ascii) (s : string) :
  match_at (seqs [WordB; Lit "so"; WordB]) prev s = None ->
  match_at (seqs [WordB; Lit "so to speak"; WordB]) prev s = None.
Proof.
  unfold match_at. cbn [seqs Lit run].
  destruct (at_boundary prev s); [|done].
  do 3 next_char. done.
Qed.

Lemma fillers_match (prev : option ascii) (s : string) :
  match_at Rules._fillers prev s = match_at _live_fillers prev s.
Proof.
  unfold Rules._fillers, _live_fillers.
  pose (wrap := fun f => seqs [WordB; f; WordB]).
  rewrite (match_at_alts (map wrap Rules.fillers)) by discriminate.
  rewrite (match_at_alts (map wrap live_fillers)) by discriminate.
  pose (L := map wrap Rules.fillers).
  assert (first_match L prev s
          = first_match (take 42 L ++ drop 43 L) prev s) as HA.
  { exact (first_match_drop (take 42 L) (drop 43 L)
             (wrap (Lit "that's good")) prev s
             (fun H => that_shadows prev s
                         (first_match_None _ prev s 36 _ H eq_refl))). }
  assert (first_match (take 42 L ++ drop 43 L) prev s
          = first_match (take 41 L ++ drop 43 L) prev s) as HB.
  { exact (first_match_drop (take 41 L) (drop 43 L)
             (wrap (Lit "so to speak")) prev s
             (fun H => so_shadows prev s
                         (first_match_None _ prev s 35 _ H eq_refl))). }
  exact (eq_trans HA HB).
Qed.

(** The fillers ["so to speak"] and ["that's good"] never take effect:
    ["so"] and ["that"] stand before them in the alternation and match
    wherever they would, so filler removal is the same without the two. *)
Theorem shadowed_fillers_are_dead (text : string) :
  remove_fillers text = sub _live_fillers [] text.
Proof.
  exact (f_equal (String.concat "")
           (scan_ext Rules._fillers _live_fillers
              (fun _ g => expand [] g) (fun c => String c "")
              fillers_match text None 0)).
Qed.

End FillerMore.

(** ** The number expander on a text with one number *)

Module NumberMore.
Import Str StrFacts Re Checker.

Lemma lit_head (c : ascii) (d : string) :
  Lit (String c d) = match d with
                     | EmptyString => Chr c
                     | String _ _ => Seq (Chr c) (Lit d)
                     end.
Proof. by destruct d. Qed.

(** A literal matches its own text, whatever stands before or after. *)
Lemma run_lit_here (d s : string) :
  d <> "" ->
  forall prev n,
  run (Lit d) prev (d +:+ s) n [] (fun _ _ n' g => Some (n', g))
  = Some ((n + String.length d)%nat, []).
Proof.
  induction d as [|c d IH]; [done|]. intros _ prev n.
  rewrite lit_head, app_cons. destruct d as [|c' d].
  - cbn. rewrite Ascii.eqb_refl. f_equal. f_equal. lia.
  - cbn [run]. rewrite Ascii.eqb_refl. rewrite IH by done.
    cbn [String.length]. f_equal. f_equal. lia.
Qed.

(** A literal does not match where the text starts with another
    character. *)
Lemma match_at_lit_miss (c0 c : ascii) (d s : string) (prev : option ascii) :
  c0 <> c -> match_at (Lit (String c0 d)) prev (String c s) = None.
Proof.
  intros Hne. unfold match_at. rewrite lit_head.
  destruct d; cbn [run]; by destruct (Ascii.eqb_spec c c0).
Qed.

Section Scan.
Context {A : Type} (on_match : string -> groups -> A) (on_char : ascii -> A).

Lemma scan_skip (r : regex) (u s : string) :
  forall prev,
  exists prev',
    scan r on_match on_char prev (u +:+ s) (String.length u)
    = scan r on_match on_char prev' s 0.
Proof.
  induction u as [|c u IH]; intros prev.
  - exists prev. by rewrite app_nil_l.
  - rewrite app_cons. cbn [String.length scan]. apply IH.
Qed.

(** The scan for a literal starting with a digit copies a text without
    digits up to its end. *)
Lemma scan_lit_prefix (c0 : ascii) (d a s : string) :
  Char.is_digit c0 = true ->
  all (fun c => negb (Char.is_digit c)) a = true ->
  forall prev,
  exists prev',
    scan (Lit (String c0 d)) on_match on_char prev (a +:+ s) 0
    = map on_char (list_ascii_of_string a)
      ++ scan (Lit (String c0 d)) on_match on_char prev' s 0.
Proof.
  intros H0. induction a as [|c a IH]; intros Ha prev.
  - exists prev. by rewrite app_nil_l.
  - cbn in Ha. apply andb_prop in Ha as [Hc Ha].
    rewrite app_cons. cbn [scan]. rewrite match_at_lit_miss.
    2:{ intros ->. by rewrite H0 in Hc. }
    destruct (IH Ha (Some c)) as [prev' ->]. by exists prev'.
Qed.

End Scan.

Lemma concat_app (l1 l2 : list string) :
  String.concat "" (l1 ++ l2) = String.concat "" l1 +:+ String.concat "" l2.
Proof.
  induction l1 as [|t l1 IH]; [by rewrite app_nil_l|].
  cbn [app]. rewrite !ReFacts.concat_cons, IH. by rewrite app_assoc.
Qed.

Lemma concat_chars (s : string) :
  String.concat "" (map (fun c => String c "") (list_ascii_of_string s)) = s.
Proof.
  induction s as [|c s IH]; [done|].
  cbn [list_ascii_of_string map]. by rewrite ReFacts.concat_cons, IH.
Qed.

(** Replacing a number by a text in a string that holds it once, between
    two texts without digits. *)
Lemma sub_single_run (c0 : ascii) (d a b w : string) :
  Char.is_digit c0 = true ->
  all (fun c => negb (Char.is_digit c)) a = true ->
  all (fun c => negb (Char.is_digit c)) b = true ->
  sub (Lit (String c0 d)) [Txt w] (a +:+ String c0 d +:+ b) = a +:+ w +:+ b.
Proof.
  intros H0 Ha Hb. unfold sub, sub_with.
  destruct (scan_lit_prefix (fun _ g => expand [Txt w] g)
              (fun c => String c "") c0 d a (String c0 d +:+ b) H0 Ha None)
    as [prev1 ->].
  rewrite app_cons. cbn [scan]. unfold match_at.
  rewrite <- (app_cons c0 d b), run_lit_here by done. rewrite ?app_cons.
  cbn [String.length Nat.add].
  destruct (scan_skip (fun _ g => expand [Txt w] g) (fun c => String c "")
              (Lit (String c0 d)) d b (Some c0)) as [prev2 ->].
  rewrite (ReFacts.scan_needs Char.is_digit).
  - rewrite concat_app, ReFacts.concat_cons, !concat_chars.
    cbn [expand]. by rewrite app_nil_r.
  - rewrite lit_head. destruct d; cbn [needs]; by rewrite H0.
  - exact Hb.
Qed.

Lemma runs_acc_skip (p : ascii -> bool) (a s : string) :
  all (fun c => negb (p c)) a = true ->
  runs_acc p "" (a +:+ s) = runs_acc p "" s.
Proof.
  induction a as [|c a IH]; [by rewrite app_nil_l|].
  cbn. intros [Hc Ha]%andb_prop. rewrite app_cons. cbn [runs_acc].
  destruct (p c); [done|]. by apply IH.
Qed.

Lemma findall_single_run (d a b : string) :
  d <> "" -> all Char.is_digit d = true ->
  all (fun c => negb (Char.is_digit c)) a = true ->
  all (fun c => negb (Char.is_digit c)) b = true ->
  findall Rules.digits (a +:+ d +:+ b) = [d].
Proof.
  intros Hne Hd Ha Hb. unfold Rules.digits. rewrite ReFacts.findall_plus.
  unfold runs. rewrite runs_acc_skip, runs_acc_app by done.
  rewrite app_nil_l, CleanerMore.runs_acc_none by done. by destruct d.
Qed.

Section WithSelf.
Variable self : artifacts.

(** On a text with a single run of digits the number expander puts the
    words of that number, between two spaces, in the place of the run and
    leaves the rest as it is. *)
Theorem num_replace_single_run (d a b : string) :
  d <> "" -> all Char.is_digit d = true ->
  all (fun c => negb (Char.is_digit c)) a = true ->
  all (fun c => negb (Char.is_digit c)) b = true ->
  _num_replace self (a +:+ d +:+ b)
  = a +:+ (" " +:+ num_to_text self d +:+ " ") +:+ b.
Proof.
  intros Hne Hd Ha Hb. unfold _num_replace. cbv zeta.
  rewrite findall_single_run by done. cbn [map zip zip_with foldl fst snd].
  destruct d as [|c0 d]; [done|]. cbn in Hd. apply andb_prop in Hd as [H0 _].
  by apply sub_single_run.
Qed.

End WithSelf.

End NumberMore.

(** ** Letter case *)

Module CaseMore.
Import Str Checker.

Lemma lower_char_idempotent (c : ascii) :
  Char.lower (Char.lower c) = Char.lower c.
Proof. by destruct c as [[] [] [] [] [] [] [] []]. Qed.

Lemma lower_idempotent (s : string) : lower (lower s) = lower s.
Proof.
  induction s as [|c s IH]; [done|]. cbn. by rewrite lower_char_idempotent, IH.
Qed.

Section WithSelf.
Variable self : artifacts.

(** The cleaning does not depend on letter case: two texts with the same
    lowercase form are cleaned to the same string, and so are a text and
    its lowercase form. *)
Theorem clean_text_ignores_case (text1 text2 : string) :
  (lower text1 = lower text2 -> clean_text self text1 = clean_text self text2) /\
  clean_text self (lower text1) = clean_text self text1.
Proof.
  assert (forall t1 t2, lower t1 = lower t2 ->
                        clean_text self t1 = clean_text self t2) as H.
  { intros t1 t2 E. unfold clean_text, rewrite_text, strip_markup. cbv zeta.
    by rewrite E. }
  split; [apply H|]. apply H, lower_idempotent.
Qed.

End WithSelf.

End CaseMore.

(** ** The ordinal rules *)

Module OrdinalMore.
Import Str StrFacts Re Checker.

(** A literal matches its own text and hands on what follows. *)
Lemma run_lit_cont {R : Type} (d s : string) :
  d <> "" ->
  forall prev n g (k : @cont R),
  exists prev', run (Lit d) prev (d +:+ s) n g k
                = k prev' s (n + String.length d)%nat g.
Proof.
  induction d as [|c d IH]; [done|]. intros _ prev n g k.
  rewrite NumberMore.lit_head, app_cons. destruct d as [|c' d].
  - exists (Some c). cbn. rewrite Ascii.eqb_refl. f_equal. lia.
  - cbn [run]. rewrite Ascii.eqb_refl.
    destruct (IH ltac:(done) (Some c) (S n) g k) as [prev' ->].
    exists prev'. cbn [String.length]. f_equal. lia.
Qed.

Lemma run_lit_miss {R : Type} (c0 c : ascii) (d s : string)
    (prev : option ascii) (n : nat) (g : groups) (k : @cont R) :
  c0 <> c -> run (Lit (String c0 d)) prev (String c s) n g k = None.
Proof.
  intros Hne. rewrite NumberMore.lit_head.
  destruct d; cbn [run]; by destruct (Ascii.eqb_spec c c0).
Qed.

Lemma run_lit_miss_empty {R : Type} (c0 : ascii) (d : string)
    (prev : option ascii) (n : nat) (g : groups) (k : @cont R) :
  run (Lit (String c0 d)) prev "" n g k = None.
Proof. rewrite NumberMore.lit_head. by destruct d. Qed.

(** A greedy repetition runs through a text of the class when the match
    goes through from its end. *)
Lemma rep_through {R : Type} (p : ascii -> bool) (d t : string) (lo : nat)
    (k : option ascii -> string -> nat -> option R) :
  all p d = true ->
  (forall prev' n', is_Some (rep p (lo - String.length d) None prev' t n' k)) ->
  forall prev n,
  exists prev',
    rep p lo None prev (d +:+ t) n k
    = rep p (lo - String.length d) None prev' t (n + String.length d)%nat k.
Proof.
  revert lo. induction d as [|c d IH]; intros lo Hd Hk prev n.
  - exists prev. rewrite app_nil_l. cbn. by rewrite Nat.sub_0_r, Nat.add_0_r.
  - cbn in Hd. apply andb_prop in Hd as [Hc Hd].
    rewrite app_cons. cbn [rep String.length]. rewrite Hc. cbn [andb may_take].
    destruct (IH (Nat.pred lo) Hd) with (prev := Some c) (n := S n)
      as [prev' E].
    { intros prev' n'. replace (Nat.pred lo - String.length d)%nat
        with (lo - S (String.length d))%nat by lia. apply Hk. }
    cbn [fmap option_fmap option_map]. rewrite E.
    replace (Nat.pred lo - String.length d)%nat
      with (lo - S (String.length d))%nat by lia.
    replace (S n + String.length d)%nat
      with (n + S (String.length d))%nat by lia.
    exists prev'.
    destruct (Hk prev' (n + S (String.length d))%nat) as [x Hx].
    cbn [String.length] in Hx. by rewrite Hx.
Qed.

Lemma substring_app (d s : string) :
  substring 0 (String.length d) (d +:+ s) = d.
Proof.
  induction d as [|c d IH]; [by destruct s|].
  rewrite app_cons. cbn. by rewrite IH.
Qed.

Lemma all_length_substring (s : string) : substring 0 (String.length s) s = s.
Proof. induction s as [|c s IH]; [done|]. cbn. by rewrite IH. Qed.

(** A pattern that matches a whole text, and not the empty rest, is
    replaced once. *)
Lemma scan_whole {A : Type} (r : regex) (on_match : string -> groups -> A)
    (on_char : ascii -> A) (s : string) (g : groups) (prev : option ascii) :
  s <> "" ->
  match_at r prev s = Some (String.length s, g) ->
  (forall prev', match_at r prev' "" = None) ->
  scan r on_match on_char prev s 0 = [on_match s g].
Proof.
  intros Hne Hm Hend. destruct s as [|c s]; [done|].
  cbn [scan]. rewrite Hm. cbn [String.length].
  rewrite <- (all_length_substring (String c s)) at 2. f_equal.
  rewrite <- (app_nil_r s) at 1.
  destruct (NumberMore.scan_skip on_match on_char r s "" (Some c)) as [prev' ->].
  cbn [scan]. by rewrite Hend.
Qed.

(** The four ordinal rules: a repetition of digits in group 1 and a
    literal ("1st", "2nd", "3rd", "th") in group 2. *)
Local Abbreviation ordinal_rule lo L :=
  (Seq (Grp 1 (Rep Char.is_digit lo None)) (Grp 2 (Lit L))).

Lemma ordinal_rule_end (lo : nat) (c0 : ascii) (L : string)
    (prev : option ascii) :
  match_at (ordinal_rule lo (String c0 L)) prev "" = None.
Proof.
  unfold match_at. cbn [run rep]. destruct lo; [|done].
  cbn [run]. apply run_lit_miss_empty.
Qed.

Lemma run_lit_all {R : Type} (d : string) :
  d <> "" ->
  forall prev n g (k : @cont R),
  exists prev', run (Lit d) prev d n g k = k prev' "" (n + String.length d)%nat g.
Proof.
  intros Hne prev n g k.
  destruct (run_lit_cont d "" Hne prev n g k) as [prev' E].
  exists prev'. by rewrite app_nil_r in E.
Qed.

Lemma rep_backtrack_one {R : Type} (p : ascii -> bool) (l0 l1 : ascii)
    (rest : string) (k : option ascii -> string -> nat -> option R) :
  p l0 = true -> p l1 = false ->
  (forall prev m, k prev (String l1 rest) m = None) ->
  forall prev n,
  rep p 0 None prev (String l0 (String l1 rest)) n k
  = k prev (String l0 (String l1 rest)) n.
Proof.
  intros H0 H1 Hk prev n. cbn [rep]. rewrite H0, H1. cbn [andb may_take].
  by rewrite Hk.
Qed.

Lemma rep_stop_here {R : Type} (p : ascii -> bool) (l : ascii)
    (rest : string) (k : option ascii -> string -> nat -> option R)
    (prev : option ascii) (n : nat) :
  p l = false -> rep p 0 None prev (String l rest) n k = k prev (String l rest) n.
Proof. intros H. cbn [rep]. by rewrite H. Qed.

Lemma length_app (s t : string) :
  String.length (s +:+ t) = (String.length s + String.length t)%nat.
Proof. induction s as [|c s IH]; [done|]. rewrite app_cons. cbn. by rewrite IH. Qed.

(** On digits followed by the literal, the rule matches the whole text
    with the digits in group 1: for "1st", "2nd" and "3rd" the repetition
    first takes the digit of the literal too and gives it back. *)
Lemma ordinal_match_digit_literal (l0 l1 : ascii) (rest d : string)
    (prev : option ascii) :
  Char.is_digit l0 = true -> Char.is_digit l1 = false ->
  all Char.is_digit d = true ->
  exists g2,
    match_at (ordinal_rule 0 (String l0 (String l1 rest))) prev
             (d +:+ String l0 (String l1 rest))
    = Some (String.length (d +:+ String l0 (String l1 rest)), [(2, g2); (1, d)]).
Proof.
  intros H0 H1 Hd. set (L := String l0 (String l1 rest)).
  unfold match_at. cbn [run].
  match goal with |- context [rep _ _ _ _ _ _ ?k] => set (K := k) end.
  assert (forall prev' n', rep Char.is_digit 0 None prev' L n' K = K prev' L n')
    as Hrep.
  { apply rep_backtrack_one; [done..|]. intros prev' m. unfold K.
    apply run_lit_miss. intros ->. by rewrite H0 in H1. }
  assert (forall prev' n', K prev' L n'
            = Some ((n' + String.length L)%nat,
                    [(2, substring 0 (n' + String.length L - n') L);
                     (1, substring 0 (n' - 0) (d +:+ L))])) as HK.
  { intros prev' n'. unfold K.
    destruct (run_lit_all L ltac:(done) prev' n'
                [(1, substring 0 (n' - 0) (d +:+ L))]
                (fun prev'0 s'0 n'0 g' =>
                   Some (n'0, (2, substring 0 (n'0 - n') L) :: g')))
      as [prev'' E]. exact E. }
  destruct (rep_through Char.is_digit d L 0 K Hd) with (prev := prev) (n := 0%nat)
    as [prev' ->].
  { intros prev' n'. cbn [Nat.sub]. rewrite Hrep, HK. by eexists. }
  cbn [Nat.sub Nat.add]. rewrite Hrep, HK, Nat.sub_0_r, substring_app, length_app.
  by eexists.
Qed.

Lemma ordinal_match_letter_literal (l : ascii) (rest d : string)
    (prev : option ascii) :
  Char.is_digit l = false -> d <> "" -> all Char.is_digit d = true ->
  exists g2,
    match_at (ordinal_rule 1 (String l rest)) prev (d +:+ String l rest)
    = Some (String.length (d +:+ String l rest), [(2, g2); (1, d)]).
Proof.
  intros Hl Hne Hd. set (L := String l rest).
  unfold match_at. cbn [run].
  match goal with |- context [rep _ _ _ _ _ _ ?k] => set (K := k) end.
  assert (forall prev' n', rep Char.is_digit 0 None prev' L n' K = K prev' L n')
    as Hrep by (intros; by apply rep_stop_here).
  assert (forall prev' n', K prev' L n'
            = Some ((n' + String.length L)%nat,
                    [(2, substring 0 (n' + String.length L - n') L);
                     (1, substring 0 (n' - 0) (d +:+ L))])) as HK.
  { intros prev' n'. unfold K.
    destruct (run_lit_all L ltac:(done) prev' n'
                [(1, substring 0 (n' - 0) (d +:+ L))]
                (fun prev'0 s'0 n'0 g' =>
                   Some (n'0, (2, substring 0 (n'0 - n') L) :: g')))
      as [prev'' E]. exact E. }
  assert (1 - String.length d = 0)%nat as Hlo by (destruct d; [done|cbn; lia]).
  destruct (rep_through Char.is_digit d L 1 K Hd) with (prev := prev) (n := 0%nat)
    as [prev' ->].
  { intros prev' n'. rewrite Hlo, Hrep, HK. by eexists. }
  rewrite Hlo. cbn [Nat.add].
  rewrite Hrep, HK, Nat.sub_0_r, substring_app, length_app. by eexists.
Qed.

(** The replacement on a text that the rule matches as a whole. *)
Lemma sub_ordinal_whole (lo : nat) (c0 : ascii) (L s : string)
    (tpl : list piece) (g : groups) :
  s <> "" ->
  match_at (ordinal_rule lo (String c0 L)) None s = Some (String.length s, g) ->
  sub (ordinal_rule lo (String c0 L)) tpl s = expand tpl g.
Proof.
  intros Hne Hm. unfold sub, sub_with.
  by rewrite (scan_whole _ _ _ s g None Hne Hm (ordinal_rule_end lo c0 L)).
Qed.

(** The repetition cannot get a match through when the continuation
    fails after every run of the class before the text [t]. *)
Lemma rep_none {R : Type} (p : ascii -> bool) (u t : string)
    (k : option ascii -> string -> nat -> option R) :
  all p u = true ->
  (forall v prev m, all p v = true -> k prev (v +:+ t) m = None) ->
  match t with String c _ => p c = false | EmptyString => True end ->
  forall lo prev n, rep p lo None prev (u +:+ t) n k = None.
Proof.
  intros Hu Hk Ht. induction u as [|c u IH]; intros lo prev n.
  - rewrite app_nil_l. specialize (Hk "" prev n eq_refl).
    rewrite app_nil_l in Hk.
    destruct t as [|c t]; cbn [rep]; [by destruct lo|].
    rewrite Ht. cbn [andb]. by destruct lo.
  - pose proof (Hk (String c u) prev n Hu) as Hhere.
    cbn in Hu. apply andb_prop in Hu as [Hc Hu].
    rewrite app_cons. rewrite app_cons in Hhere.
    cbn [rep]. rewrite Hc. cbn [andb may_take].
    rewrite (IH Hu). by destruct lo.
Qed.

(** [\d+th] finds nothing in digits followed by " third". *)
Lemma th_rule_misses_third (u : string) (prev : option ascii) :
  all Char.is_digit u = true ->
  match_at (ordinal_rule 1 "th") prev (u +:+ " third") = None.
Proof.
  intros Hu. unfold match_at. cbn [run]. apply rep_none; [done| |done].
  intros v prev' m Hv. destruct v as [|c v].
  - rewrite app_nil_l. by apply run_lit_miss.
  - rewrite app_cons. apply run_lit_miss. intros <-.
    cbn in Hv. by apply andb_prop in Hv as [? _].
Qed.

Lemma sub_th_third (u : string) :
  all Char.is_digit u = true ->
  sub (ordinal_rule 1 "th") [Ref 1] (u +:+ " third") = u +:+ " third".
Proof.
  intros Hu. unfold sub, sub_with.
  assert (forall prev,
            scan (ordinal_rule 1 "th") (fun _ g => expand [Ref 1] g)
                 (fun c => String c "") prev (u +:+ " third") 0
            = map (fun c => String c "")
                  (list_ascii_of_string (u +:+ " third"))) as ->;
    [|apply NumberMore.concat_chars].
  induction u as [|c u IH]; intros prev.
  - vm_compute. reflexivity.
  - rewrite app_cons. cbn [scan]. rewrite <- app_cons.
    rewrite th_rule_misses_third by done. rewrite app_cons.
    cbn in Hu. apply andb_prop in Hu as [_ Hu].
    cbn [list_ascii_of_string map]. by rewrite IH.
Qed.

Lemma digits_lack (a : ascii) (d : string) :
  Char.is_digit a = false -> all Char.is_digit d = true ->
  all (fun c => negb (is_chr a c)) d = true.
Proof.
  intros Ha. apply ReFacts.all_impl. intros c Hc. unfold is_chr.
  destruct (Ascii.eqb_spec a c) as [->|]; [by rewrite Ha in Hc|done].
Qed.

Lemma lack_app (a : ascii) (d t : string) :
  Char.is_digit a = false -> all Char.is_digit d = true ->
  all (fun c => negb (is_chr a c)) t = true ->
  all (fun c => negb (is_chr a c)) (d +:+ t) = true.
Proof. intros Ha Hd Ht. by rewrite all_app, digits_lack, Ht. Qed.

Ltac skip_rule a :=
  match goal with
  | |- context [sub ?r ?tpl (?d +:+ ?t)] =>
      rewrite (ReFacts.sub_needs (is_chr a) r tpl (d +:+ t));
      [|vm_compute; reflexivity|by apply lack_app]
  end.

(** The ordinal rules on a number with an ordinal ending: "1st", "2nd" and
    "3rd" lose their digit to a 0 and become "0 first", "0 second" and
    "0 third" after the digits before them, so that "21st" reads
    "20 first"; "th" after digits is dropped. *)
Theorem ordinals_on_numbers (d : string) :
  all Char.is_digit d = true ->
  ordinals (d +:+ "1st") = d +:+ "0 first" /\
  ordinals (d +:+ "2nd") = d +:+ "0 second" /\
  ordinals (d +:+ "3rd") = d +:+ "0 third" /\
  (d <> "" -> ordinals (d +:+ "th") = d).
Proof.
  intros Hd. unfold ordinals, Star, Plus. cbv zeta.
  assert (forall t, t <> "" -> d +:+ t <> "") as Hnil
    by (intros t Ht; destruct d; [by rewrite app_nil_l|by rewrite app_cons]).
  split; [|split; [|split]].
  - destruct (ordinal_match_digit_literal "1" "s" "t" d None) as [g2 Hm];
      [done..|].
    rewrite (sub_ordinal_whole 0 "1" "st" _ _ _ (Hnil "1st" ltac:(done)) Hm).
    cbn [expand group Nat.eqb]. rewrite app_nil_r.
    skip_rule "n"%char. skip_rule "d"%char. by skip_rule "h"%char.
  - skip_rule "t"%char.
    destruct (ordinal_match_digit_literal "2" "n" "d" d None) as [g2 Hm];
      [done..|].
    rewrite (sub_ordinal_whole 0 "2" "nd" _ _ _ (Hnil "2nd" ltac:(done)) Hm).
    cbn [expand group Nat.eqb]. rewrite app_nil_r.
    skip_rule "r"%char. by skip_rule "h"%char.
  - skip_rule "t"%char. skip_rule "n"%char.
    destruct (ordinal_match_digit_literal "3" "r" "d" d None) as [g2 Hm];
      [done..|].
    rewrite (sub_ordinal_whole 0 "3" "rd" _ _ _ (Hnil "3rd" ltac:(done)) Hm).
    cbn [expand group Nat.eqb]. rewrite app_nil_r.
    change (d +:+ "0 third") with (d +:+ ("0" +:+ " third")).
    rewrite <- app_assoc. apply sub_th_third.
    rewrite all_app, Hd. done.
  - intros Hne. skip_rule "s"%char. skip_rule "n"%char. skip_rule "r"%char.
    destruct (ordinal_match_letter_literal "t" "h" d None) as [g2 Hm];
      [done..|].
    rewrite (sub_ordinal_whole 1 "t" "h" _ _ _ (Hnil "th" ltac:(done)) Hm).
    cbn [expand group Nat.eqb]. by rewrite app_nil_r.
Qed.

End OrdinalMore.

(** ** Further runs on small instances *)

Module MoreRuns.
Import Str Checker.


Lemma wmd_flows_shapes_runs :
  exists W_ v_1 v_2,
    wmd_flows (small ["hello"; "world"]) "hello world" "hello" = Ok (W_, v_1, v_2) /\
    length W_ = length (cv_features ["hello world"; "hello"]) /\
    length v_1 = length W_ /\ length v_2 = length W_.
Proof.
  eexists _, _, _. split; [vm_compute; reflexivity|].
  destruct (WmdMore.wmd_flows_shapes
              (small ["hello"; "world"]) "hello world" "hello" _ _ _ eq_refl)
    as (_ & _ & _ & HW & H1 & H2 & _).
  split; [exact HW|].
  split; [exact (eq_trans H1 (eq_sym HW))|exact (eq_trans H2 (eq_sym HW))].
Defined.

Lemma clean_text_without_content_runs :
  clean_text (small ["hello"]) " ... [?!] -- : " = "".
Proof.
  apply (CleanerMore.clean_text_without_content (small ["hello"])).
  reflexivity.
Defined.

Lemma num_replace_without_digits_runs :
  _num_replace (small []) "no digits here" = "no digits here".
Proof.
  apply (CleanerMore.num_replace_without_digits (small [])). reflexivity.
Defined.

Lemma num_replace_single_run_runs :
  _num_replace (small []) "i have 21 apples" = "i have  twenty one  apples".
Proof.
  apply (NumberMore.num_replace_single_run (small []) "21" "i have " " apples");
    (reflexivity || discriminate).
Defined.

Lemma clean_text_alphabet_runs :
  all Char.is_plain (clean_text (small ["hello"; "one"]) "Hello, World 1!") = true.
Proof.
  apply (proj2 (CleanerMore.clean_text_alphabet
                  (small ["hello"; "one"]) "Hello, World 1!")).
  apply Runs.small_plain_numbers.
Defined.

Lemma clean_text_ignores_case_runs :
  clean_text (small ["hello"]) "Hello" = clean_text (small ["hello"]) "hELLO".
Proof.
  apply (proj1 (CaseMore.clean_text_ignores_case
                  (small ["hello"]) "Hello" "hELLO")).
  reflexivity.
Defined.

Lemma predict_row_classifies_runs :
  exists values,
    _generate (small ["hello"; "world"])
      (clean_text (small ["hello"; "world"]) ("Hello!", "world").1)
      (clean_text (small ["hello"; "world"]) ("Hello!", "world").2) = Ok values /\
    predict_row (small ["hello"; "world"]) ("Hello!", "world")
    = ([CallGenerate (clean_text (small ["hello"; "world"]) ("Hello!", "world").1)
          (clean_text (small ["hello"; "world"]) ("Hello!", "world").2);
        CallModel values],
       Ok (model_predict (small ["hello"; "world"]) values)).
Proof.
  apply (DecisionMore.predict_row_classifies
           (small ["hello"; "world"]) ("Hello!", "world")).
  - apply Runs.small_plain_numbers.
  - vm_compute. discriminate.
  - vm_compute. discriminate.
Defined.

Lemma predict_returns_labels_runs :
  exists cs labels,
    predict (small ["hello"; "world"])
      [("Hello!", "world"); ("hello", ""); ("", "world")]
    = (cs, Ok (join "," labels)) /\
    length labels
    = length [("Hello!", "world"); ("hello", ""); ("", "world")].
Proof.
  apply (DecisionMore.predict_returns_labels (small ["hello"; "world"])).
  apply Runs.small_plain_numbers.
Defined.

Lemma ordinals_on_numbers_runs :
  all Char.is_digit "2" = true /\
  ordinals "21st" = "20 first" /\ ordinals "22nd" = "20 second" /\
  ordinals "23rd" = "20 third" /\ ordinals "2th" = "2".
Proof.
  split; [reflexivity|].
  destruct (OrdinalMore.ordinals_on_numbers "2" eq_refl) as (H1 & H2 & H3 & H4).
  split; [exact H1|]. split; [exact H2|]. split; [exact H3|].
  exact (H4 ltac:(done)).
Defined.

End MoreRuns.
